(** * goto: content-addressed URL shortener (src/goto/server.py)

    A shallow embedding of the storage core of the server: the path sharding
    function [file_location], the bounded cache [LRU], the content store
    [ContentHasher] and the two request handlers; then the vocabulary of the
    statements; then the properties, with their proofs.

    Conventions.
    - Python [int] is [Z]; [bytes] is [list byte]; [str] is [string].  The
      program turns a [str] into bytes and back only through the codecs,
      which are fields of [PyLib]: whether a string encodes or decodes is
      theirs to say.
    - An [OrderedDict] is an association list, oldest entry first.
    - Code that may raise runs in a state-and-exception monad in which the
      state survives an exception, as the mutations of a Python object do.
    - Library calls whose result the program only passes on (hashlib, the
      URL parser, the UTF-8 codec, the latin-1 codec of the header lines) are
      fields of a record [PyLib]; pathlib and the file system are modelled
      here. *)

From Stdlib Require Import ZArith String Ascii List Sorted Lia DecimalString.
From stdpp Require Import base option list strings gmap.

Local Open Scope Z_scope.

Abbreviation bytes := (list Byte.byte).

(* ===================================================================== *)
(** ** Exceptions and the state-and-exception monad *)
(* ===================================================================== *)

Inductive exn : Set :=
  | KeyError
  | ValueError
  | UnicodeDecodeError
  | FileNotFoundError
  | FileExistsError
  | IsADirectoryError
  | NotADirectoryError
  | UnicodeEncodeError.

#[global] Instance exn_eq_dec : EqDecision exn.
Proof. solve_decision. Defined.

Inductive result (A : Type) : Type :=
  | Ok (a : A)
  | Raise (e : exn).
Arguments Ok {A} a.
Arguments Raise {A} e.

(** A computation over a mutable state [S]: it returns a value or raises,
    and in both cases leaves a state behind. *)
Definition M (S A : Type) : Type := S -> result A * S.

Definition ret {S A} (a : A) : M S A := fun s => (Ok a, s).
Definition raise {S A} (e : exn) : M S A := fun s => (Raise e, s).
Definition bind {S A B} (m : M S A) (k : A -> M S B) : M S B :=
  fun s => match m s with
           | (Ok a, s') => k a s'
           | (Raise e, s') => (Raise e, s')
           end.
Definition get_state {S} : M S S := fun s => (Ok s, s).
Definition put_state {S} (s : S) : M S unit := fun _ => (Ok tt, s).
Definition modify {S} (f : S -> S) : M S unit := fun s => (Ok tt, f s).

(** [try: m except e: h] *)
Definition try_except {S A} (m : M S A) (e : exn) (h : M S A) : M S A :=
  fun s => match m s with
           | (Raise e', s') => if decide (e' = e) then h s' else (Raise e', s')
           | r => r
           end.

(** Run a computation on a component of the state. *)
Definition zoom {S T A} (get : S -> T) (set : T -> S -> S) (m : M T A) : M S A :=
  fun s => let '(r, t) := m (get s) in (r, set t s).

Declare Scope py_scope.
Delimit Scope py_scope with py.
Notation "x <- m ;; k" := (bind m (fun x => k))
  (at level 100, m at next level, right associativity) : py_scope.
Notation "m ;;; k" := (bind m (fun _ => k))
  (at level 100, right associativity) : py_scope.
Local Open Scope py_scope.

(* ===================================================================== *)
(** ** Python strings, slices and ranges *)
(* ===================================================================== *)

Definition len (s : string) : Z := Z.of_nat (String.length s).

(** Index normalisation of a slice bound: negative bounds count from the
    end, and the result is clamped to [0, len]. *)
Definition clamp_index (n i : Z) : Z :=
  if i <? 0 then Z.max 0 (i + n) else Z.min i n.

(** [s[lo:hi]] *)
Definition slice (s : string) (lo hi : Z) : string :=
  let a := clamp_index (len s) lo in
  let b := clamp_index (len s) hi in
  substring (Z.to_nat a) (Z.to_nat (b - a)) s.

(** [range(start, stop, step)] for a positive step. *)
Definition range (start stop step : Z) : list Z :=
  map (fun k => start + step * Z.of_nat k)
      (seq 0 (Z.to_nat ((stop - start + step - 1) / step))).

(** [str(n)] for an int. *)
Definition str (n : Z) : string := NilZero.string_of_int (Z.to_int n).

(** [s.split("/")] : never empty. *)
Fixpoint split_slash (s : string) : list string :=
  match s with
  | EmptyString => [EmptyString]
  | String c s' =>
      if Ascii.eqb c "/" then EmptyString :: split_slash s'
      else match split_slash s' with
           | [] => [String c EmptyString]
           | w :: ws => String c w :: ws
           end
  end.

(** [s.split("/")[-1]] *)
Definition last_segment (s : string) : string := List.last (split_slash s) EmptyString.

Fixpoint has_slash (s : string) : bool :=
  match s with
  | EmptyString => false
  | String c s' => Ascii.eqb c "/" || has_slash s'
  end.

(* ===================================================================== *)
(** ** pathlib: pure paths *)
(* ===================================================================== *)

(** A path is an anchor (the empty string, or one or two slashes) and the list of
    its components.  Empty components and [.] are dropped when a string is
    parsed; [..] is kept. *)
Record Path : Type := mkPath { anchor : string; parts : list string }.

Definition is_component (s : string) : bool :=
  negb (String.eqb s "") && negb (String.eqb s ".").

Definition parse_parts (s : string) : list string :=
  filter (fun x => is_component x = true) (split_slash s).

Definition parse_anchor (s : string) : string :=
  match s with
  | String "/" (String "/" (String "/" _)) => "/"
  | String "/" (String "/" _) => "//"
  | String "/" _ => "/"
  | _ => ""
  end.

(** [Path(s)] *)
Definition path_of (s : string) : Path :=
  {| anchor := parse_anchor s; parts := parse_parts s |}.

(** [p / q] for two paths: an anchored right operand replaces the left. *)
Definition joinpath (p q : Path) : Path :=
  if String.eqb (anchor q) "" then
    {| anchor := anchor p; parts := parts p ++ parts q |}
  else q.

(** [p / s] for a string. *)
Definition truediv (p : Path) (s : string) : Path := joinpath p (path_of s).

Infix "</>" := truediv (at level 40, left associativity) : py_scope.

(** [p.parent] *)
Definition parent (p : Path) : Path :=
  {| anchor := anchor p; parts := removelast (parts p) |}.

Fixpoint join_slash (l : list string) : string :=
  match l with
  | [] => ""
  | [x] => x
  | x :: l' => x +:+ "/" +:+ join_slash l'
  end.

(** [str(p)] *)
Definition path_str (p : Path) : string :=
  match anchor p, parts p with
  | EmptyString, [] => "."
  | a, l => a +:+ join_slash l
  end.

(* ===================================================================== *)
(** ** file_location (server.py, lines 11-16) *)
(* ===================================================================== *)

Definition file_location (algorithm : string) (length : Z) (hash_digest : string) : Path :=
  let path := path_of algorithm </> ("l" +:+ str length) in
  let path := fold_left (fun path i => path </> slice hash_digest i (i + 2))
                        (range 0 (length - 2) 2) path in
  let path := path </> hash_digest in
  path.

(* ===================================================================== *)
(** ** collections.OrderedDict *)
(* ===================================================================== *)

Module OrderedDict.
(** Entries in insertion order, oldest first; keys are pairwise distinct. *)
Abbreviation t K V := (list (K * V)).

Section defs.
Context {K V : Type} `{EqDecision K}.
Local Abbreviation t := (t K V).

Definition empty : t := [].

Definition keys (d : t) : list K := d.*1.

(** [key in d] *)
Definition contains (key : K) (d : t) : bool := bool_decide (key ∈ keys d).

Fixpoint lookup (key : K) (d : t) : option V :=
  match d with
  | [] => None
  | (k, v) :: d' => if decide (k = key) then Some v else lookup key d'
  end.

(** [d[key]] *)
Definition getitem (key : K) : M t V :=
  fun d => match lookup key d with
           | Some v => (Ok v, d)
           | None => (Raise KeyError, d)
           end.

(** [d[key] = value]: an existing key keeps its position. *)
Definition setitem (key : K) (value : V) : M t unit :=
  modify (fun d =>
    if contains key d
    then map (fun kv => if decide (kv.1 = key) then (key, value) else kv) d
    else d ++ [(key, value)]).

Definition remove (key : K) (d : t) : t :=
  filter (fun kv => kv.1 ≠ key) d.

(** [d.move_to_end(key)] *)
Definition move_to_end (key : K) : M t unit :=
  fun d => match lookup key d with
           | Some v => (Ok tt, remove key d ++ [(key, v)])
           | None => (Raise KeyError, d)
           end.

(** [d.popitem(last=False)] *)
Definition popitem_first : M t (K * V) :=
  fun d => match d with
           | kv :: d' => (Ok kv, d')
           | [] => (Raise KeyError, d)
           end.
End defs.
End OrderedDict.

(* ===================================================================== *)
(** ** class LRU (server.py, lines 19-35) *)
(* ===================================================================== *)

Module LRU.
Section defs.
Context {K V : Type} `{EqDecision K}.

Record t : Type := mk { max_size : Z; cache : OrderedDict.t K V }.

Definition with_cache (c : OrderedDict.t K V) (self : t) : t :=
  {| max_size := max_size self; cache := c |}.

(** Run a dictionary method on [self.cache]. *)
Definition on_cache {A} (m : M (OrderedDict.t K V) A) : M t A :=
  zoom cache with_cache m.

Definition __init__ (max_size : Z) : t :=
  {| max_size := max_size; cache := OrderedDict.empty |}.

Definition __contains__ (key : K) : M t bool :=
  self <- get_state ;;
  ret (OrderedDict.contains key (cache self)).

Definition __getitem__ (key : K) : M t V :=
  on_cache (OrderedDict.move_to_end key) ;;;
  on_cache (OrderedDict.getitem key).

Definition __setitem__ (key : K) (value : V) : M t unit :=
  on_cache (OrderedDict.setitem key value) ;;;
  on_cache (OrderedDict.move_to_end key) ;;;
  self <- get_state ;;
  if Z.of_nat (length (cache self)) >=? max_size self
  then on_cache OrderedDict.popitem_first ;;; ret tt
  else ret tt.
End defs.
Arguments t : clear implicits.
End LRU.

(* ===================================================================== *)
(** ** The file system seen through pathlib *)
(* ===================================================================== *)

(** The tree below the directory from which paths are resolved.  A key is the
    list of names leading to an entry; the root (the empty key) is always a
    directory, and [..] at the root stays at the root.  There are no symbolic
    links and no permissions: an operation fails only for the structure of
    the path (a missing parent, a file or a directory in the way), never for
    access rights, space or the length of a name. *)
Inductive node : Type :=
  | File (content : bytes)
  | Dir.

Abbreviation FS := (gmap (list string) node).

Definition lookup_node (fs : FS) (k : list string) : option node :=
  match k with
  | [] => Some Dir
  | _ => fs !! k
  end.

(** One step of name resolution from the directory [cur]. *)
Definition step_name (cur : list string) (name : string) : list string :=
  if String.eqb name ".." then removelast cur else cur ++ [name].

(** Resolution of the directory part of a path: every name on the way must be
    an existing directory (ENOENT, ENOTDIR otherwise). *)
Fixpoint walk (fs : FS) (cur : list string) (names : list string) : result (list string) :=
  match names with
  | [] => Ok cur
  | name :: names' =>
      let next := step_name cur name in
      match lookup_node fs next with
      | None => Raise FileNotFoundError
      | Some (File _) => Raise NotADirectoryError
      | Some Dir => walk fs next names'
      end
  end.

(** Resolution of a whole path: the key it denotes and what is there. *)
Definition resolve (fs : FS) (p : Path) : result (list string * option node) :=
  match rev (parts p) with
  | [] => Ok ([], Some Dir)
  | name :: rdir =>
      match walk fs [] (rev rdir) with
      | Raise e => Raise e
      | Ok d => let k := step_name d name in
                if String.eqb name ".." then Ok (k, Some Dir)
                else Ok (k, lookup_node fs k)
      end
  end.

(** [p.read_bytes()] *)
Definition read_bytes (p : Path) : M FS bytes :=
  fun fs => match resolve fs p with
            | Raise e => (Raise e, fs)
            | Ok (_, None) => (Raise FileNotFoundError, fs)
            | Ok (_, Some Dir) => (Raise IsADirectoryError, fs)
            | Ok (_, Some (File c)) => (Ok c, fs)
            end.

(** [p.write_bytes(content)]: creates or truncates the file. *)
Definition write_bytes (p : Path) (content : bytes) : M FS unit :=
  fun fs => match resolve fs p with
            | Raise e => (Raise e, fs)
            | Ok (_, Some Dir) => (Raise IsADirectoryError, fs)
            | Ok (k, _) => (Ok tt, <[k := File content]> fs)
            end.

(** [os.mkdir(p)] *)
Definition os_mkdir (p : Path) : M FS unit :=
  fun fs => match resolve fs p with
            | Raise e => (Raise e, fs)
            | Ok (_, Some _) => (Raise FileExistsError, fs)
            | Ok (k, None) => (Ok tt, <[k := Dir]> fs)
            end.

(** [p.is_dir()] *)
Definition is_dir (fs : FS) (p : Path) : bool :=
  match resolve fs p with
  | Ok (_, Some Dir) => true
  | _ => false
  end.

(** [p.mkdir(parents=False, exist_ok=True)] *)
Definition mkdir_exist_ok (p : Path) : M FS unit :=
  fun fs => match os_mkdir p fs with
            | (Raise FileNotFoundError, fs') => (Raise FileNotFoundError, fs')
            | (Raise e, fs') => if is_dir fs' p then (Ok tt, fs') else (Raise e, fs')
            | r => r
            end.

(** [p.mkdir(parents=True, exist_ok=True)], by recursion on the components of
    [p] listed last first: the parent drops the head of that list. *)
Fixpoint mkdir_parents_rev (a : string) (rparts : list string) : M FS unit :=
  let p := {| anchor := a; parts := rev rparts |} in
  fun fs => match os_mkdir p fs with
            | (Raise FileNotFoundError, fs') =>
                match rparts with
                | [] => (Raise FileNotFoundError, fs')
                | _ :: rparent =>
                    (mkdir_parents_rev a rparent ;;; mkdir_exist_ok p) fs'
                end
            | (Raise e, fs') => if is_dir fs' p then (Ok tt, fs') else (Raise e, fs')
            | r => r
            end.

Definition mkdir_parents (p : Path) : M FS unit :=
  mkdir_parents_rev (anchor p) (rev (parts p)).

(* ===================================================================== *)
(** ** Library calls the program passes through *)
(* ===================================================================== *)

Record PyLib : Type := mkPyLib {
  (** [h = hashlib.new(name); h.update(content); h.hexdigest()];
      [None] when [hashlib.new] raises ValueError (unsupported hash type).
      The extendable-output algorithms (shake_128, shake_256), whose
      [hexdigest] takes a length and raises TypeError without one, are not
      among the names of a [PyLib]. *)
  hexdigest : string -> bytes -> option string;
  (** [urlparse(s).geturl()]; [None] when the parser raises ValueError. *)
  geturl : string -> option string;
  (** [s.encode()] *)
  encode : string -> bytes;
  (** [b.decode()]; [None] when it raises UnicodeDecodeError. *)
  decode : bytes -> option string;
  (** [s.encode("latin-1", "strict")]; [None] when it raises
      UnicodeEncodeError (a code point above 255). *)
  encode_latin1 : string -> option bytes
}.

Definition lift_option {S A} (o : option A) (e : exn) : M S A :=
  match o with
  | Some a => ret a
  | None => raise e
  end.

(* ===================================================================== *)
(** ** class ContentHasher (server.py, lines 38-64) *)
(* ===================================================================== *)

Module ContentHasher.
Record t : Type := mk {
  hash_algorithm : string;
  hash_length : Z;
  state_dir : Path;
  cache : LRU.t string bytes
}.

Definition with_cache (c : LRU.t string bytes) (self : t) : t :=
  {| hash_algorithm := hash_algorithm self;
     hash_length := hash_length self;
     state_dir := state_dir self;
     cache := c |}.

(** Stores its arguments and creates an empty cache. *)
Definition __init__ (hash_algorithm : string) (hash_length : Z)
    (state_dir : Path) (cache_size : Z) : result t :=
  Ok {| hash_algorithm := hash_algorithm;
        hash_length := hash_length;
        state_dir := state_dir;
        cache := LRU.__init__ cache_size |}.
End ContentHasher.

(** The state shared by all requests: the hasher object and the disk. *)
Record world : Type := mkWorld { hasher : ContentHasher.t; disk : FS }.

Definition with_hasher (h : ContentHasher.t) (w : world) : world :=
  {| hasher := h; disk := disk w |}.
Definition with_disk (fs : FS) (w : world) : world :=
  {| hasher := hasher w; disk := fs |}.

(** Run a cache method on [self.hasher.cache], a file operation on the disk. *)
Definition on_lru {A} (m : M (LRU.t string bytes) A) : M world A :=
  zoom hasher with_hasher (zoom ContentHasher.cache ContentHasher.with_cache m).
Definition on_disk {A} (m : M FS A) : M world A :=
  zoom disk with_disk m.

Section Server.
Variable lib : PyLib.

(** [ContentHasher.hash] *)
Definition hash (content : bytes) : M world string :=
  w <- get_state ;;
  let self := hasher w in
  h <- lift_option (hexdigest lib (ContentHasher.hash_algorithm self) content) ValueError ;;
  ret (slice h 0 (ContentHasher.hash_length self)).

(** The path of the entry of an identifier:
    [self.state_dir / file_location(self.hash_algorithm, self.hash_length, id)]. *)
Definition entry_path (self : ContentHasher.t) (content_id : string) : Path :=
  joinpath (ContentHasher.state_dir self)
           (file_location (ContentHasher.hash_algorithm self)
                          (ContentHasher.hash_length self) content_id).

(** [ContentHasher.save] *)
Definition save (content : bytes) : M world string :=
  content_hash <- hash content ;;
  on_lru (LRU.__setitem__ content_hash content) ;;;
  w <- get_state ;;
  let file_path := entry_path (hasher w) content_hash in
  on_disk (mkdir_parents (parent file_path)) ;;;
  on_disk (write_bytes file_path content) ;;;
  ret content_hash.

(** Lines 79-93 of [do_GET]: the cache, then the disk.  [None] stands for
    the branch that answers 404 and returns. *)
Definition load (content_id : string) : M world (option bytes) :=
  try_except
    (content <- on_lru (LRU.__getitem__ content_id) ;; ret (Some content))
    KeyError
    (try_except
       (w <- get_state ;;
        content <- on_disk (read_bytes (entry_path (hasher w) content_id)) ;;
        on_lru (LRU.__setitem__ content_id content) ;;;
        ret (Some content))
       FileNotFoundError
       (ret None)).

Record response : Type := mkResponse {
  status : Z;
  headers : list (string * string);
  body : bytes
}.

(** [self.send_header(keyword, value)] for a value that is not a constant of
    the program: the handler encodes the line [keyword: value] as latin-1,
    strict, which raises exactly when the value does not encode. *)
Definition send_header (keyword value : string) : M world (string * string) :=
  lift_option (encode_latin1 lib value) UnicodeEncodeError ;;;
  ret (keyword, value).

(** [do_GET]; [url_path] is [urlparse(self.path).path]. *)
Definition do_GET (url_path : string) : M world response :=
  let content_id := last_segment url_path in
  r <- load content_id ;;
  match r with
  | None => ret {| status := 404; headers := []; body := [] |}
  | Some content =>
      location <- lift_option (decode lib content) UnicodeDecodeError ;;
      header <- send_header "Location" location ;;
      ret {| status := 302; headers := [header]; body := [] |}
  end.

(** [str(self.headers["Host"])]: a missing header reads as [None]. *)
Definition host_str (host : option string) : string :=
  match host with
  | Some h => h
  | None => "None"
  end.

(** [do_POST]; [content] is the body read from the request and [host] the
    Host header.  Its one header is a constant of the program, in ASCII. *)
Definition do_POST (content : bytes) (host : option string) : M world response :=
  s <- lift_option (decode lib content) UnicodeDecodeError ;;
  url <- lift_option (geturl lib s) ValueError ;;
  if negb (String.eqb url "") then
    content_hash <- save (encode lib url) ;;
    ret {| status := 200;
           headers := [("Content-type", "text/plain")];
           body := encode lib ("http://" +:+ host_str host +:+ "/" +:+ content_hash) |}
  else
    ret {| status := 400; headers := [];
           body := String.list_byte_of_string "Invalid URL" |}.
End Server.

(* ===================================================================== *)
(** ** A stand-in library, to run the model on concrete requests *)
(* ===================================================================== *)

(** The theorems below hold for every [PyLib].  To evaluate the handlers on
    concrete requests one instance is needed; this one has the shape of the
    real library on ASCII input, not its values: the digest is the lowercase
    hexadecimal rendering of the content, zero-padded or cut to the width of
    the named algorithm. *)
Module Demo.
Definition hex_digit (n : N) : ascii :=
  match n with
  | 0 => "0" | 1 => "1" | 2 => "2" | 3 => "3" | 4 => "4" | 5 => "5"
  | 6 => "6" | 7 => "7" | 8 => "8" | 9 => "9" | 10 => "a" | 11 => "b"
  | 12 => "c" | 13 => "d" | 14 => "e" | _ => "f"
  end%N%char.

Fixpoint hex_of_bytes (b : bytes) : string :=
  match b with
  | [] => ""
  | x :: b' =>
      let n := Byte.to_N x in
      String (hex_digit (N.div n 16)) (String (hex_digit (N.modulo n 16)) (hex_of_bytes b'))
  end.

Fixpoint zeros (n : nat) : string :=
  match n with
  | O => ""
  | S n' => String "0" (zeros n')
  end.

Definition digest_width (name : string) : option nat :=
  if String.eqb name "sha256" then Some 64%nat
  else if String.eqb name "md5" then Some 32%nat
  else None.

Definition hexdigest (name : string) (content : bytes) : option string :=
  match digest_width name with
  | Some w => Some (substring 0 w (hex_of_bytes content +:+ zeros w))
  | None => None
  end.

Definition is_upper (c : ascii) : bool :=
  let n := nat_of_ascii c in (65 <=? n)%nat && (n <=? 90)%nat.
Definition is_lower (c : ascii) : bool :=
  let n := nat_of_ascii c in (97 <=? n)%nat && (n <=? 122)%nat.
Definition is_scheme_char (c : ascii) : bool :=
  let n := nat_of_ascii c in
  is_upper c || is_lower c || ((48 <=? n)%nat && (n <=? 57)%nat)
  || Ascii.eqb c "+" || Ascii.eqb c "-" || Ascii.eqb c ".".
Definition lower (c : ascii) : ascii :=
  if is_upper c then ascii_of_nat (nat_of_ascii c + 32) else c.

(** The scheme of a URL, when it has one: a letter, then scheme characters,
    up to the first colon. *)
Fixpoint scheme_end (s : string) : option nat :=
  match s with
  | EmptyString => None
  | String c s' =>
      if Ascii.eqb c ":" then Some O
      else if is_scheme_char c then S <$> scheme_end s'
      else None
  end.

Fixpoint lower_prefix (n : nat) (s : string) : string :=
  match n, s with
  | S n', String c s' => String (lower c) (lower_prefix n' s')
  | _, _ => s
  end.

(** Parsing and re-serialising lowercases the scheme; the rest of these
    URLs is returned as it is. *)
Definition geturl (s : string) : option string :=
  match s with
  | String c _ =>
      if is_upper c || is_lower c then
        match scheme_end s with
        | Some (S n) => Some (lower_prefix (S n) s)
        | _ => Some s
        end
      else Some s
  | EmptyString => Some s
  end.

Definition encode (s : string) : bytes := String.list_byte_of_string s.

Definition decode (b : bytes) : option string :=
  if forallb (fun x => (Byte.to_N x <? 128)%N) b
  then Some (String.string_of_list_byte b)
  else None.

(** The strings of this instance are ASCII: all of them encode. *)
Definition encode_latin1 (s : string) : option bytes :=
  Some (String.list_byte_of_string s).

Definition lib : PyLib :=
  mkPyLib hexdigest geturl encode decode encode_latin1.

(** The default configuration of the server, with a given cache size. *)
Definition hasher0 (cache_size : Z) : ContentHasher.t :=
  {| ContentHasher.hash_algorithm := "sha256";
     ContentHasher.hash_length := 5;
     ContentHasher.state_dir := path_of "goto_state";
     ContentHasher.cache := LRU.__init__ cache_size |}.

Definition world0 (cache_size : Z) : world :=
  {| hasher := hasher0 cache_size; disk := ∅ |}.
End Demo.

(* ===================================================================== *)
(** * Vocabulary of the statements *)
(* ===================================================================== *)

(** ** The bounded cache *)

(** The dictionary after lines 32-33 of [__setitem__]: the entry is last,
    the other entries keep their order. *)
Definition inserted {K V : Type} `{EqDecision K} (key : K) (value : V)
    (d : OrderedDict.t K V) : OrderedDict.t K V :=
  OrderedDict.remove key d ++ [(key, value)].

(** The dictionary after lines 34-35. *)
Definition evicted {K V : Type} (max_size : Z) (d : OrderedDict.t K V) : OrderedDict.t K V :=
  if Z.of_nat (length d) >=? max_size then tail d else d.

(** Successive insertions into a cache. *)
Fixpoint puts {K V : Type} `{EqDecision K} (kvs : list (K * V)) : M (LRU.t K V) unit :=
  match kvs with
  | [] => ret tt
  | (k, v) :: kvs' => LRU.__setitem__ k v ;;; puts kvs'
  end.

Definition size {K V : Type} (self : LRU.t K V) : Z :=
  Z.of_nat (length (LRU.cache self)).

(** The states a cache goes through during [__setitem__]: after line 32,
    after line 33, and on return. *)
Definition setitem_states {K V : Type} `{EqDecision K} (key : K) (value : V)
    (self : LRU.t K V) : list (LRU.t K V) :=
  let s1 := (LRU.on_cache (OrderedDict.setitem key value) self).2 in
  let s2 := (LRU.on_cache (OrderedDict.move_to_end key) s1).2 in
  let s3 := (LRU.__setitem__ key value self).2 in
  [s1; s2; s3].

(** The caches a program can build: created empty, then read and written
    through the methods of the class. *)
Inductive reachable {K V : Type} `{EqDecision K} (max_size : Z) : LRU.t K V -> Prop :=
  | reachable_init : reachable max_size (LRU.__init__ max_size)
  | reachable_setitem self key value :
      reachable max_size self -> reachable max_size (LRU.__setitem__ key value self).2
  | reachable_getitem self key :
      reachable max_size self -> reachable max_size (LRU.__getitem__ key self).2.

(** C3 as stated: the size never exceeds the configured maximum, at any
    point of any insertion. *)
Definition never_exceeds {K V : Type} `{EqDecision K} (max_size : Z) : Prop :=
  forall (self : LRU.t K V) (key : K) (value : V),
    reachable max_size self ->
    Forall (fun s => size s <= max_size) (setitem_states key value self).

(** ** Path components *)

(** A string that pathlib keeps as exactly one component. *)
Definition is_name (s : string) : bool := is_component s && negb (has_slash s).

(** C5 as stated: for every algorithm name, every length and every digest of
    at least that many characters the path is the algorithm, [l<L>], the
    slices and the digest. *)
Definition sharded_path (algorithm : string) (length : Z) (hash_digest : string) : Path :=
  {| anchor := "";
     parts := algorithm :: ("l" +:+ str length)
              :: map (fun i => slice hash_digest i (i + 2)) (range 0 (length - 2) 2)
              ++ [hash_digest] |}.

Definition sharding_as_claimed : Prop :=
  forall (algorithm : string) (length : Z) (hash_digest : string),
    length <= len hash_digest ->
    file_location algorithm length hash_digest = sharded_path algorithm length hash_digest.

(** A path component that names an entry of its directory. *)
Definition is_plain (s : string) : bool := is_name s && negb (String.eqb s "..").

Definition is_hex_char (c : ascii) : bool :=
  let n := nat_of_ascii c in
  ((48 <=? n)%nat && (n <=? 57)%nat) || ((97 <=? n)%nat && (n <=? 102)%nat).

(** Lowercase hexadecimal strings, as [hexdigest] returns. *)
Fixpoint is_hex (s : string) : bool :=
  match s with
  | EmptyString => true
  | String c s' => is_hex_char c && is_hex s'
  end.

(** ** The file system *)

(** Every directory of [fs] is a directory of [fs']. *)
Definition dirs_preserved (fs fs' : FS) : Prop :=
  forall k, fs !! k = Some Dir -> fs' !! k = Some Dir.

(** The outcome of [mkdir(parents=True, exist_ok=True)] on [ps]: the path
    resolves to itself, and the only change is that missing prefixes of [ps]
    became directories. *)
Definition mkdir_post (fs fs' : FS) (ps : list string) : Prop :=
  walk fs' [] ps = Ok ps
  /\ forall k, fs' !! k = fs !! k
               \/ (fs !! k = None /\ fs' !! k = Some Dir /\ k `prefix_of` ps).

(** ** The content store and the handlers *)

(** The hasher after [self.cache[key] = value]. *)
Definition cache_put (key : string) (value : bytes) (self : ContentHasher.t) : ContentHasher.t :=
  ContentHasher.with_cache
    (LRU.with_cache
       (evicted (LRU.max_size (ContentHasher.cache self))
                (inserted key value (LRU.cache (ContentHasher.cache self))))
       (ContentHasher.cache self))
    self.

(** The reply to a POST that saved [saved]. *)
Definition post_reply (lib : PyLib) (saved : bytes) (host : option string) : M world response :=
  fun w => match save lib saved w with
           | (Ok digest, w') =>
               (Ok {| status := 200;
                      headers := [("Content-type", "text/plain")];
                      body := encode lib ("http://" +:+ host_str host +:+ "/" +:+ digest) |},
                w')
           | (Raise e, w') => (Raise e, w')
           end.

(** C6 as stated: the handler saves the bytes of the submitted string. *)
Definition POST_saves_original (lib : PyLib) : Prop :=
  forall (content : bytes) (host : option string) (w : world) (s url : string),
    decode lib content = Some s ->
    geturl lib s = Some url ->
    url <> "" ->
    do_POST lib content host w = post_reply lib (encode lib s) host w.

(** C7 as stated: constructing the store with a name the digest provider does
    not recognise raises. *)
Definition fails_fast_at_startup : Prop :=
  forall (lib : PyLib) (algorithm : string) (length : Z) (dir : Path) (cache_size : Z),
    (forall content, hexdigest lib algorithm content = None) ->
    exists e, ContentHasher.__init__ algorithm length dir cache_size = Raise e.

(** The operations of the store a request triggers. *)
Inductive request : Type :=
  | Save (content : bytes)
  | Get (url_path : string).

Definition serve (lib : PyLib) (w : world) (r : request) : world :=
  match r with
  | Save content => (save lib content w).2
  | Get url_path => (do_GET lib url_path w).2
  end.

Definition serve_all (lib : PyLib) (rs : list request) (w : world) : world :=
  fold_left (serve lib) rs w.

(** Every entry of the cache is on the disk with the same content. *)
Definition cache_backed (w : world) : Prop :=
  forall content_id content,
    (content_id, content) ∈ LRU.cache (ContentHasher.cache (hasher w)) ->
    read_bytes (entry_path (hasher w) content_id) (disk w) = (Ok content, disk w).

(** C8 as stated, for a store created by [self] over an empty disk. *)
Definition disk_authoritative (lib : PyLib) (self : ContentHasher.t) : Prop :=
  forall rs, cache_backed (serve_all lib rs {| hasher := self; disk := ∅ |}).

(** Every cached identifier is free of slashes, as the identifiers of
    requests and the digests are. *)
Definition cache_ids_plain (w : world) : Prop :=
  forall content_id content,
    (content_id, content) ∈ LRU.cache (ContentHasher.cache (hasher w)) ->
    has_slash content_id = false.

(** Every save of the run returned: no directory creation and no write
    raised. *)
Fixpoint saves_return (lib : PyLib) (rs : list request) (w : world) : Prop :=
  match rs with
  | [] => True
  | r :: rs' =>
      match r with
      | Save content => exists d, (save lib content w).1 = Ok d
      | Get _ => True
      end
      /\ saves_return lib rs' (serve lib w r)
  end.

(** [fs'] is [fs] with more directories. *)
Definition only_new_dirs (fs fs' : FS) : Prop :=
  forall k, fs' !! k = fs !! k \/ (fs !! k = None /\ fs' !! k = Some Dir).

(** The state of a server started over the disk [fs]: the configured store
    and an empty cache. *)
Definition started_on (fs : FS) (algorithm : string) (length : Z) (dir : Path)
    (cache_size : Z) : world :=
  {| hasher := {| ContentHasher.hash_algorithm := algorithm;
                  ContentHasher.hash_length := length;
                  ContentHasher.state_dir := dir;
                  ContentHasher.cache := LRU.__init__ cache_size |};
     disk := fs |}.

(** ** The layout of the store *)

(** The shard components of an identifier. *)
Definition shards (length : Z) (content_id : string) : list string :=
  filter (fun s => is_component s = true)
    (map (fun i => slice content_id i (i + 2)) (range 0 (length - 2) 2)).

(** The directory of all entries. *)
Definition base (algorithm : string) (length : Z) (dir : Path) : list string :=
  parts dir ++ [algorithm; "l" +:+ str length].

(** The key of the file of a digest. *)
Definition entry_key (algorithm : string) (length : Z) (dir : Path) (digest : string) : list string :=
  base algorithm length dir ++ shards length digest ++ [digest].

Definition configured (algorithm : string) (length : Z) (dir : Path)
    (self : ContentHasher.t) : Prop :=
  ContentHasher.hash_algorithm self = algorithm
  /\ ContentHasher.hash_length self = length
  /\ ContentHasher.state_dir self = dir.

(** A digest of the store: [n] hexadecimal digits. *)
Definition digest_ok (n : nat) (d : string) : Prop :=
  is_hex d = true /\ String.length d = n.

(** What holds of the store between requests: the configuration is the
    initial one; the files are the entries of digests; the directories are
    shorter than the keys of entries; every cached identifier has no slash
    and reads from the disk as cached; and once the disk is not empty the
    directory of all entries exists. *)
Record store_inv (algorithm : string) (length : Z) (dir : Path) (n : nat)
    (w : world) : Prop := {
  inv_config : configured algorithm length dir (hasher w);
  inv_files : forall k c, disk w !! k = Some (File c) ->
              exists d, digest_ok n d /\ k = entry_key algorithm length dir d;
  inv_dirs : forall k d, disk w !! k = Some Dir -> digest_ok n d ->
             (List.length k < List.length (entry_key algorithm length dir d))%nat;
  inv_cache : forall content_id content,
      (content_id, content) ∈ LRU.cache (ContentHasher.cache (hasher w)) ->
      has_slash content_id = false
      /\ read_bytes (entry_path (hasher w) content_id) (disk w) = (Ok content, disk w);
  inv_base : disk w <> ∅ ->
             walk (disk w) [] (base algorithm length dir) = Ok (base algorithm length dir)
}.

(** ** Vocabulary of the further properties *)

(** The strings of a list, one after the other. *)
Definition joined (l : list string) : string := fold_right String.append "" l.

(** The identifier [hash] computes for a content, when the digest provider
    accepts the algorithm. *)
Definition digest_of (lib : PyLib) (algorithm : string) (length : Z)
    (content : bytes) : option string :=
  match hexdigest lib algorithm content with
  | Some h => Some (slice h 0 length)
  | None => None
  end.

(** A request that does not save another content under the identifier [d]
    of [content]. *)
Definition no_collision (lib : PyLib) (algorithm : string) (length : Z)
    (d : string) (content : bytes) (r : request) : Prop :=
  match r with
  | Save content' => digest_of lib algorithm length content' = Some d -> content' = content
  | Get _ => True
  end.

(** A request that does not save under the identifier [d]. *)
Definition never_saves (lib : PyLib) (algorithm : string) (length : Z)
    (d : string) (r : request) : Prop :=
  match r with
  | Save content' => digest_of lib algorithm length content' <> Some d
  | Get _ => True
  end.

(** Every file of the disk is the entry of the digest of its content. *)
Definition addressed (lib : PyLib) (algorithm : string) (length : Z) (dir : Path)
    (fs : FS) : Prop :=
  forall k content,
    fs !! k = Some (File content) ->
    exists d, digest_of lib algorithm length content = Some d
              /\ k = entry_key algorithm length dir d.

(** The state a server starts in: the configured store, an empty cache, an
    empty disk. *)
Definition started (algorithm : string) (length : Z) (dir : Path) (cache_size : Z) : world :=
  {| hasher := {| ContentHasher.hash_algorithm := algorithm;
                  ContentHasher.hash_length := length;
                  ContentHasher.state_dir := dir;
                  ContentHasher.cache := LRU.__init__ cache_size |};
     disk := ∅ |}.

(** A configuration whose algorithm name and state directory components are
    plain names and whose identifiers are strings of [n >= 1] hexadecimal
    digits. *)
Definition well_configured (lib : PyLib) (algorithm : string) (length : Z) (dir : Path)
    (n : nat) : Prop :=
  is_plain algorithm = true
  /\ Forall (fun s => is_plain s = true) (parts dir)
  /\ (1 <= n)%nat
  /\ (forall content h,
        hexdigest lib algorithm content = Some h -> digest_ok n (slice h 0 length)).

(** The entry of [d] reads back [content]. *)
Definition kept (algorithm : string) (length : Z) (dir : Path) (n : nat)
    (d : string) (content : bytes) (w : world) : Prop :=
  store_inv algorithm length dir n w
  /\ read_bytes (entry_path (hasher w) d) (disk w) = (Ok content, disk w).

(** Nothing is stored at the key of [d]. *)
Definition absent (algorithm : string) (length : Z) (dir : Path) (n : nat)
    (d : string) (w : world) : Prop :=
  store_inv algorithm length dir n w
  /\ disk w !! entry_key algorithm length dir d = None.

(* ===================================================================== *)
(** * Properties *)
(* ===================================================================== *)

Lemma bind_Ok {S A B} (m : M S A) (k : A -> M S B) s a s' :
  m s = (Ok a, s') -> bind m k s = k a s'.
Proof. unfold bind. intros ->. reflexivity. Qed.

Lemma bind_Raise {S A B} (m : M S A) (k : A -> M S B) s e s' :
  m s = (Raise e, s') -> bind m k s = (Raise e, s').
Proof. unfold bind. intros ->. reflexivity. Qed.

(** Inversion of a successful [bind]. *)
Lemma bind_inv_Ok {S A B} (m : M S A) (k : A -> M S B) s b s2 :
  bind m k s = (Ok b, s2) ->
  exists a s1, m s = (Ok a, s1) /\ k a s1 = (Ok b, s2).
Proof.
  unfold bind. destruct (m s) as [[a|e] s1]; [eauto | discriminate].
Qed.

(* ===================================================================== *)
(** ** The bounded cache *)
(* ===================================================================== *)

Section LRU_facts.
Context {K V : Type} `{EqDecision K}.
Implicit Types (d : OrderedDict.t K V) (k key : K) (v value : V).
Implicit Types (self : LRU.t K V).

Lemma lookup_None key d :
  OrderedDict.lookup key d = None <-> key ∉ OrderedDict.keys d.
Proof.
  unfold OrderedDict.keys. induction d as [|[k v] d IH]; simpl.
  - split; [intros _; apply not_elem_of_nil | reflexivity].
  - rewrite not_elem_of_cons. destruct (decide (k = key)) as [->|Hne].
    + split; [discriminate | intros [Hk _]; exfalso; apply Hk; reflexivity].
    + rewrite IH. split; [intros ?; split; [intros ->; apply Hne; reflexivity | assumption]
                         | intros [_ ?]; assumption].
Qed.

Lemma lookup_Some_elem key value d :
  OrderedDict.lookup key d = Some value -> (key, value) ∈ d.
Proof.
  induction d as [|[k v] d IH]; simpl; [discriminate|].
  destruct (decide (k = key)) as [->|Hne].
  - intros [= ->]. apply list_elem_of_here.
  - intros Hl. apply list_elem_of_further, IH, Hl.
Qed.

Lemma lookup_snoc key k v d :
  OrderedDict.lookup key (d ++ [(k, v)]) =
  match OrderedDict.lookup key d with
  | Some x => Some x
  | None => if decide (k = key) then Some v else None
  end.
Proof.
  induction d as [|[k' v'] d IH]; simpl; [reflexivity|].
  destruct (decide (k' = key)); [reflexivity | apply IH].
Qed.

Lemma lookup_remove_ne key k d :
  k <> key ->
  OrderedDict.lookup key (OrderedDict.remove k d) = OrderedDict.lookup key d.
Proof.
  intros Hne. unfold OrderedDict.remove.
  induction d as [|[k' v'] d IH]; [reflexivity|].
  rewrite filter_cons. simpl.
  destruct (decide (k' <> k)) as [Hk|Hk]; simpl.
  - destruct (decide (k' = key)); [reflexivity | apply IH].
  - apply dec_stable in Hk. subst k'.
    destruct (decide (k = key)); [contradiction | apply IH].
Qed.

Lemma lookup_remove_eq key d :
  OrderedDict.lookup key (OrderedDict.remove key d) = None.
Proof.
  unfold OrderedDict.remove.
  induction d as [|[k' v'] d IH]; [reflexivity|].
  rewrite filter_cons. simpl.
  destruct (decide (k' <> key)) as [Hk|Hk]; simpl; [|apply IH].
  destruct (decide (k' = key)); [contradiction | apply IH].
Qed.

Lemma remove_notin key d :
  key ∉ OrderedDict.keys d -> OrderedDict.remove key d = d.
Proof.
  unfold OrderedDict.remove, OrderedDict.keys.
  induction d as [|[k' v'] d IH]; [reflexivity|].
  rewrite fmap_cons, not_elem_of_cons. simpl. intros [Hne Hnin].
  rewrite filter_cons. simpl.
  destruct (decide (k' <> key)) as [Hk|Hk]; [f_equal; auto | naive_solver].
Qed.

Lemma remove_replace key value d :
  OrderedDict.remove key
    (map (fun kv => if decide (kv.1 = key) then (key, value) else kv) d)
  = OrderedDict.remove key d.
Proof.
  unfold OrderedDict.remove.
  induction d as [|[k' v'] d IH]; [reflexivity|].
  rewrite map_cons, !filter_cons. simpl.
  destruct (decide (k' = key)) as [->|Hne]; simpl.
  - destruct (decide (key <> key)); [naive_solver | apply IH].
  - destruct (decide (k' <> key)); [f_equal; apply IH | naive_solver].
Qed.

Lemma lookup_replace key value d :
  key ∈ OrderedDict.keys d ->
  OrderedDict.lookup key
    (map (fun kv => if decide (kv.1 = key) then (key, value) else kv) d)
  = Some value.
Proof.
  unfold OrderedDict.keys.
  induction d as [|[k' v'] d IH]; simpl; [intros Hin; inversion Hin|].
  rewrite elem_of_cons.
  destruct (decide (k' = key)) as [->|Hne]; simpl.
  - intros _. destruct (decide (key = key)); congruence.
  - intros [Heq|Hin]; [congruence|].
    destruct (decide (k' = key)); [congruence | auto].
Qed.

(** Lines 32-33 of [__setitem__] never raise and leave [inserted]. *)
Lemma setitem_move_to_end key value d :
  (OrderedDict.setitem key value ;;; OrderedDict.move_to_end key) d
  = (Ok tt, inserted key value d).
Proof.
  unfold bind, OrderedDict.setitem, modify, OrderedDict.move_to_end, inserted.
  unfold OrderedDict.contains. case_bool_decide as Hin.
  - rewrite lookup_replace by assumption. rewrite remove_replace. reflexivity.
  - rewrite lookup_snoc.
    assert (Hn : OrderedDict.lookup key d = None) by (apply lookup_None; assumption).
    rewrite Hn. destruct (decide (key = key)); [|congruence].
    unfold OrderedDict.remove. rewrite filter_app, filter_cons, filter_nil. simpl.
    destruct (decide (key <> key)); [naive_solver|].
    rewrite app_nil_r. reflexivity.
Qed.

Lemma LRU_insert_eq key value self :
  (LRU.on_cache (OrderedDict.setitem key value) ;;;
   LRU.on_cache (OrderedDict.move_to_end key)) self
  = (Ok tt, LRU.with_cache (inserted key value (LRU.cache self)) self).
Proof.
  pose proof (setitem_move_to_end key value (LRU.cache self)) as Hins.
  unfold bind, OrderedDict.setitem, modify in Hins.
  unfold LRU.on_cache, zoom, bind, OrderedDict.setitem, modify. simpl.
  destruct (OrderedDict.move_to_end key _) as [[[]|e] d1] eqn:Hmv;
    inversion Hins; subst d1. reflexivity.
Qed.

(** [__setitem__] in closed form: it never raises. *)
Lemma LRU_setitem_eq key value self :
  LRU.__setitem__ key value self =
  (Ok tt, LRU.with_cache
            (evicted (LRU.max_size self) (inserted key value (LRU.cache self)))
            self).
Proof.
  pose proof (setitem_move_to_end key value (LRU.cache self)) as Hins.
  unfold bind, OrderedDict.setitem, modify in Hins.
  unfold LRU.__setitem__, LRU.on_cache, zoom, bind, OrderedDict.setitem, modify,
    get_state, ret. simpl.
  destruct (OrderedDict.move_to_end key _) as [[[]|e] d1] eqn:Hmv;
    inversion Hins; subst d1. simpl.
  unfold evicted, OrderedDict.popitem_first.
  destruct (Z.of_nat (length (inserted key value (LRU.cache self))) >=? LRU.max_size self);
    [|reflexivity].
  unfold inserted. destruct (OrderedDict.remove key (LRU.cache self)); reflexivity.
Qed.

(** [__getitem__] in closed form. *)
Lemma LRU_getitem_eq key self :
  LRU.__getitem__ key self =
  match OrderedDict.lookup key (LRU.cache self) with
  | Some v => (Ok v, LRU.with_cache (inserted key v (LRU.cache self)) self)
  | None => (Raise KeyError, self)
  end.
Proof.
  unfold LRU.__getitem__, LRU.on_cache, zoom, bind, OrderedDict.move_to_end,
    OrderedDict.getitem.
  destruct (OrderedDict.lookup key (LRU.cache self)) as [v|] eqn:Hl; simpl.
  - unfold inserted. rewrite lookup_snoc, lookup_remove_eq.
    destruct (decide (key = key)); [reflexivity | congruence].
  - destruct self; reflexivity.
Qed.

Lemma length_remove_le key d :
  (length (OrderedDict.remove key d) <= length d)%nat.
Proof. unfold OrderedDict.remove. apply length_filter. Qed.

Lemma length_remove_lt key value d :
  OrderedDict.lookup key d = Some value ->
  (length (OrderedDict.remove key d) < length d)%nat.
Proof.
  unfold OrderedDict.remove.
  induction d as [|[k' v'] d IH]; [discriminate|].
  simpl OrderedDict.lookup. rewrite filter_cons. simpl.
  destruct (decide (k' = key)) as [->|Hne].
  - intros _. destruct (decide (key <> key)); [naive_solver|].
    pose proof (length_filter (fun kv : K * V => kv.1 <> key) d). lia.
  - intros Hl. destruct (decide (k' <> key)); [|naive_solver].
    simpl. apply IH in Hl. lia.
Qed.

Lemma length_inserted key value d :
  length (inserted key value d) = S (length (OrderedDict.remove key d)).
Proof. unfold inserted. rewrite length_app. simpl. lia. Qed.

Lemma length_evicted max_size d :
  1 <= max_size ->
  Z.of_nat (length d) <= max_size ->
  Z.of_nat (length (evicted max_size d)) < max_size.
Proof.
  intros HM Hle. unfold evicted.
  destruct (Z.of_nat (length d) >=? max_size) eqn:E.
  - destruct d; simpl in *; lia.
  - lia.
Qed.

(** Between calls a cache with a maximum of at least one entry holds fewer
    entries than its maximum. *)
Lemma reachable_inv max_size self :
  reachable max_size self ->
  LRU.max_size self = max_size /\ (1 <= max_size -> size self < max_size).
Proof.
  induction 1 as [|self key value _ [IHm IHs]|self key _ [IHm IHs]].
  - split; [reflexivity | unfold size; simpl; lia].
  - rewrite LRU_setitem_eq. simpl. split; [assumption|].
    intros HM. unfold size. simpl. rewrite IHm.
    apply length_evicted; [assumption|]. rewrite length_inserted.
    specialize (IHs HM). unfold size in IHs.
    pose proof (length_remove_le key (LRU.cache self)). lia.
  - rewrite LRU_getitem_eq.
    destruct (OrderedDict.lookup key (LRU.cache self)) as [v|] eqn:Hl; simpl.
    + split; [assumption|]. intros HM. specialize (IHs HM).
      unfold size in *. simpl. rewrite length_inserted.
      pose proof (length_remove_lt _ _ _ Hl). lia.
    + split; assumption.
Qed.
End LRU_facts.

(** C2.  A cache created with maximum size 2 into which A, B and C are
    inserted in that order holds C alone: the insertion of B already evicts A
    (two entries reach the maximum), and the insertion of C evicts B. *)
Theorem capacity_two_insert_A_B_C {V : Type} (a b c : V) :
  puts [("A", a); ("B", b); ("C", c)] (LRU.__init__ 2)
  = (Ok tt, {| LRU.max_size := 2; LRU.cache := [("C", c)] |})
  /\ puts [("A", a); ("B", b)] (LRU.__init__ 2)
     = (Ok tt, {| LRU.max_size := 2; LRU.cache := [("B", b)] |})
  /\ LRU.__contains__ "B" {| LRU.max_size := 2; LRU.cache := [("C", c)] |}
     = (Ok false, {| LRU.max_size := 2; LRU.cache := [("C", c)] |}).
Proof. repeat split. Qed.

(** C4.  With maximum size 2, after inserting A and B the cache holds B
    alone, so reading A raises KeyError instead of promoting A; the insertion
    of C then evicts B and leaves C alone: A is not resident. *)
Theorem capacity_two_read_A_then_insert_C {V : Type} (a b c : V) :
  let after_AB := {| LRU.max_size := 2; LRU.cache := [("B", b)] |} in
  (LRU.__setitem__ "A" a ;;; LRU.__setitem__ "B" b) (LRU.__init__ 2) = (Ok tt, after_AB)
  /\ LRU.__getitem__ "A" after_AB = (Raise KeyError, after_AB)
  /\ LRU.__setitem__ "C" c after_AB
     = (Ok tt, {| LRU.max_size := 2; LRU.cache := [("C", c)] |})
  /\ LRU.__contains__ "A" {| LRU.max_size := 2; LRU.cache := [("C", c)] |}
     = (Ok false, {| LRU.max_size := 2; LRU.cache := [("C", c)] |}).
Proof. repeat split. Qed.

(** C10.  A cache created with maximum size 1 is empty after any sequence of
    insertions: each insertion puts its entry in the dictionary (lines
    32-33) and pops that same entry (line 35); no key is contained and every
    read raises KeyError. *)
Theorem capacity_one_retains_nothing {K V : Type} `{EqDecision K} (kvs : list (K * V)) :
  puts kvs (LRU.__init__ 1) = (Ok tt, LRU.__init__ 1)
  /\ (forall (k : K) (v : V),
        (LRU.on_cache (OrderedDict.setitem k v) ;;;
         LRU.on_cache (OrderedDict.move_to_end k)) (LRU.__init__ 1)
        = (Ok tt, {| LRU.max_size := 1; LRU.cache := [(k, v)] |})
        /\ LRU.on_cache OrderedDict.popitem_first
             {| LRU.max_size := 1; LRU.cache := [(k, v)] |}
           = (Ok (k, v), LRU.__init__ 1)
        /\ LRU.__setitem__ k v (LRU.__init__ 1) = (Ok tt, LRU.__init__ 1))
  /\ (forall k : K, LRU.__contains__ k (LRU.__init__ 1 : LRU.t K V) = (Ok false, LRU.__init__ 1))
  /\ (forall k : K, LRU.__getitem__ k (LRU.__init__ 1 : LRU.t K V) = (Raise KeyError, LRU.__init__ 1)).
Proof.
  assert (Hput : forall (k : K) (v : V), LRU.__setitem__ k v (LRU.__init__ 1) = (Ok tt, LRU.__init__ 1)).
  { intros k v. rewrite LRU_setitem_eq. reflexivity. }
  split; [|split; [|split]].
  - induction kvs as [|[k v] kvs IH]; [reflexivity|].
    simpl. rewrite (bind_Ok _ _ _ _ _ (Hput k v)). exact IH.
  - intros k v. split; [|split].
    + rewrite LRU_insert_eq. reflexivity.
    + reflexivity.
    + apply Hput.
  - intros k. reflexivity.
  - intros k. reflexivity.
Qed.

(** C3, as stated, fails for a maximum below one: a cache created with
    maximum size 0 holds one entry between lines 32 and 35. *)
Lemma size_exceeds_maximum_zero : ~ never_exceeds (K := string) (V := bytes) 0.
Proof.
  intros Hbound.
  specialize (Hbound (LRU.__init__ 0) "A" [] (reachable_init 0)).
  apply Forall_cons in Hbound as [Hs1 _].
  vm_compute in Hs1. apply Hs1. reflexivity.
Qed.

(** C3, amended.  In a cache with maximum size M >= 1, every insertion
    succeeds; after lines 32-33 the entry is the last (most recently used) one,
    the other entries keep their order and values; if the size then is at
    least M the first (least recently used) entry is removed; and at every
    point of the insertion the size is at most M. *)
Theorem setitem_soft_ceiling {K V : Type} `{EqDecision K}
    (max_size : Z) (self : LRU.t K V) (key : K) (value : V) :
  1 <= max_size ->
  reachable max_size self ->
  let d1 := filter (fun kv => kv.1 <> key) (LRU.cache self) ++ [(key, value)] in
  (LRU.on_cache (OrderedDict.setitem key value) ;;;
   LRU.on_cache (OrderedDict.move_to_end key)) self
  = (Ok tt, LRU.with_cache d1 self)
  /\ (forall k, k <> key ->
        OrderedDict.lookup k d1 = OrderedDict.lookup k (LRU.cache self))
  /\ LRU.__setitem__ key value self
     = (Ok tt, LRU.with_cache
                 (if Z.of_nat (length d1) >=? max_size then tail d1 else d1) self)
  /\ Forall (fun s => size s <= max_size) (setitem_states key value self).
Proof.
  intros HM Hreach d1.
  destruct (reachable_inv _ _ Hreach) as [Hmax Hsize]. specialize (Hsize HM).
  assert (Hd1 : d1 = inserted key value (LRU.cache self)) by reflexivity.
  assert (Hlen1 : Z.of_nat (length d1) <= max_size).
  { rewrite Hd1, length_inserted.
    pose proof (length_remove_le key (LRU.cache self)). unfold size in Hsize. lia. }
  split; [|split; [|split]].
  - rewrite Hd1. apply LRU_insert_eq.
  - intros k Hne. rewrite Hd1. unfold inserted. rewrite lookup_snoc.
    rewrite lookup_remove_ne by congruence.
    destruct (OrderedDict.lookup k (LRU.cache self)); [reflexivity|].
    destruct (decide (key = k)); [congruence | reflexivity].
  - rewrite LRU_setitem_eq, Hmax, <- Hd1. reflexivity.
  - unfold setitem_states.
    pose proof (LRU_insert_eq key value self) as Hins.
    unfold bind in Hins.
    destruct (LRU.on_cache (OrderedDict.setitem key value) self) as [[[]|e] s1] eqn:Hs1;
      [|discriminate Hs1].
    simpl. rewrite Hins, LRU_setitem_eq. simpl.
    repeat apply Forall_cons_2; [| | |apply Forall_nil_2].
    + unfold LRU.on_cache, zoom, OrderedDict.setitem, modify in Hs1.
      inversion Hs1. unfold size in *. simpl.
      destruct (OrderedDict.contains key (LRU.cache self)).
      * rewrite length_map. lia.
      * rewrite length_app. simpl. lia.
    + unfold size. simpl. rewrite <- Hd1. exact Hlen1.
    + unfold size. simpl. rewrite <- Hd1, Hmax.
      pose proof (length_evicted max_size d1 HM Hlen1). lia.
Qed.

Lemma setitem_soft_ceiling_witness :
  let self : LRU.t string bytes := (LRU.__setitem__ "A" [] (LRU.__init__ 2)).2 in
  LRU.__setitem__ "B" [] self = (Ok tt, {| LRU.max_size := 2; LRU.cache := [("B", [])] |})
  /\ Forall (fun s => size s <= 2) (setitem_states "B" [] self)
  /\ map size (setitem_states "B" [] self) = [2; 2; 1].
Proof.
  intros self.
  assert (Hr : reachable 2 self) by (apply reachable_setitem, reachable_init).
  destruct (setitem_soft_ceiling 2 self "B" [] ltac:(lia) Hr) as (_ & _ & Hset & Hall).
  split; [exact Hset | split; [exact Hall | reflexivity]].
Defined.

(* ===================================================================== *)
(** ** Path sharding *)
(* ===================================================================== *)

Lemma split_slash_no_slash s : has_slash s = false -> split_slash s = [s].
Proof.
  induction s as [|c s IH]; simpl; [reflexivity|].
  destruct (Ascii.eqb c "/"); simpl; [discriminate|].
  intros Hs. rewrite (IH Hs). reflexivity.
Qed.

Lemma split_slash_no_slashes s : Forall (fun x => has_slash x = false) (split_slash s).
Proof.
  induction s as [|c s IH]; simpl; [repeat constructor|].
  destruct (Ascii.eqb c "/") eqn:E; [constructor; [reflexivity | exact IH]|].
  destruct (split_slash s) as [|x xs]; [repeat constructor; simpl; rewrite E; reflexivity|].
  apply Forall_cons in IH as [Hx Hxs]. constructor; [|exact Hxs].
  simpl. rewrite E, Hx. reflexivity.
Qed.

(** Every component of a parsed path is one name. *)
Lemma parse_parts_names s : Forall (fun x => is_name x = true) (parse_parts s).
Proof.
  unfold parse_parts. apply Forall_forall. intros x Hx.
  apply list_elem_of_filter in Hx as [Hc Hin].
  pose proof (split_slash_no_slashes s) as Hall.
  rewrite Forall_forall in Hall. unfold is_name. rewrite Hc, (Hall x Hin). reflexivity.
Qed.

Lemma truediv_names p s :
  Forall (fun x => is_name x = true) (parts p) ->
  Forall (fun x => is_name x = true) (parts (p </> s)).
Proof.
  intros Hp. unfold truediv, joinpath.
  destruct (String.eqb (anchor (path_of s)) ""); simpl.
  - apply Forall_app. split; [exact Hp | apply parse_parts_names].
  - apply parse_parts_names.
Qed.

Lemma file_location_names algorithm length hash_digest :
  Forall (fun x => is_name x = true) (parts (file_location algorithm length hash_digest)).
Proof.
  unfold file_location. cbv zeta. apply truediv_names.
  generalize (range 0 (length - 2) 2) as l.
  assert (H0 : Forall (fun x => is_name x = true)
                 (parts (path_of algorithm </> ("l" +:+ str length)))).
  { apply truediv_names. apply parse_parts_names. }
  revert H0. generalize (path_of algorithm </> ("l" +:+ str length)) as p.
  intros p Hp l. revert p Hp. induction l as [|i l IH]; intros p Hp; simpl; [exact Hp|].
  apply IH, truediv_names, Hp.
Qed.

Lemma parse_parts_no_slash s :
  has_slash s = false -> parse_parts s = if is_component s then [s] else [].
Proof.
  intros Hs. unfold parse_parts. rewrite split_slash_no_slash by assumption.
  destruct (is_component s) eqn:E.
  - rewrite filter_cons_True by exact E. reflexivity.
  - rewrite filter_cons_False by (rewrite E; discriminate). reflexivity.
Qed.

Lemma parse_anchor_no_slash s : has_slash s = false -> parse_anchor s = "".
Proof.
  destruct s as [|c s]; [reflexivity|]. simpl.
  destruct (Ascii.eqb c "/") eqn:E; simpl; [discriminate|]. intros _.
  destruct c as [[] [] [] [] [] [] [] []]; try reflexivity. discriminate E.
Qed.

Lemma path_of_no_slash s :
  has_slash s = false ->
  path_of s = {| anchor := ""; parts := if is_component s then [s] else [] |}.
Proof.
  intros Hs. unfold path_of.
  rewrite parse_anchor_no_slash, parse_parts_no_slash by assumption. reflexivity.
Qed.

Lemma truediv_no_slash p s :
  has_slash s = false ->
  p </> s = {| anchor := anchor p;
               parts := parts p ++ if is_component s then [s] else [] |}.
Proof.
  intros Hs. unfold truediv. rewrite path_of_no_slash by assumption. reflexivity.
Qed.

Lemma fold_truediv_no_slash {A} (f : A -> string) (l : list A) p :
  (forall i, i ∈ l -> has_slash (f i) = false) ->
  fold_left (fun path i => path </> f i) l p
  = {| anchor := anchor p;
       parts := parts p ++ filter (fun s => is_component s = true) (map f l) |}.
Proof.
  revert p. induction l as [|i l IH]; intros p Hl; simpl.
  - rewrite filter_nil, app_nil_r. destruct p; reflexivity.
  - rewrite IH by (intros j Hj; apply Hl; right; exact Hj).
    rewrite truediv_no_slash by (apply Hl; left). simpl.
    rewrite <- app_assoc. destruct (is_component (f i)) eqn:E.
    + rewrite filter_cons_True by exact E. reflexivity.
    + rewrite filter_cons_False by (rewrite E; discriminate). reflexivity.
Qed.

Lemma has_slash_app s t : has_slash (s +:+ t) = has_slash s || has_slash t.
Proof.
  induction s as [|c s IH]; simpl; [reflexivity|].
  rewrite IH. apply orb_assoc.
Qed.

Lemma has_slash_substring n m s :
  has_slash s = false -> has_slash (substring n m s) = false.
Proof.
  revert n m. induction s as [|c s IH]; intros n m Hs.
  - destruct n, m; reflexivity.
  - simpl in Hs. apply orb_false_iff in Hs as [Hc Hs].
    destruct n as [|n]; destruct m as [|m]; simpl; auto.
    rewrite Hc. simpl. auto.
Qed.

Lemma has_slash_slice s lo hi : has_slash s = false -> has_slash (slice s lo hi) = false.
Proof. apply has_slash_substring. Qed.

Lemma has_slash_string_of_uint d : has_slash (NilEmpty.string_of_uint d) = false.
Proof. induction d; simpl; auto. Qed.

Lemma has_slash_str n : has_slash (str n) = false.
Proof.
  unfold str, NilZero.string_of_int, NilZero.string_of_uint.
  destruct (Z.to_int n) as [d|d]; simpl;
    destruct d; simpl; auto using has_slash_string_of_uint.
Qed.

(** The component that names the truncation length is never dropped. *)
Lemma is_name_length_dir n : is_name ("l" +:+ str n) = true.
Proof.
  unfold is_name. rewrite has_slash_app, has_slash_str. simpl.
  unfold is_component. simpl. destruct (str n) as [|c s] eqn:E; [|reflexivity].
  exfalso. revert E. unfold str, NilZero.string_of_int, NilZero.string_of_uint.
  destruct (Z.to_int n) as [d|d]; destruct d; discriminate.
Qed.

Lemma length_substring n m s :
  (n + m <= String.length s)%nat -> String.length (substring n m s) = m.
Proof.
  revert n m. induction s as [|c s IH]; intros n m Hle; simpl in Hle.
  - destruct n, m; simpl; lia.
  - destruct n as [|n]; destruct m as [|m]; simpl; try reflexivity.
    + f_equal. apply (IH O m). lia.
    + apply (IH n O). lia.
    + apply (IH n (S m)). lia.
Qed.

Lemma slice_inside s i :
  0 <= i -> i + 2 <= len s ->
  slice s i (i + 2) = substring (Z.to_nat i) 2 s.
Proof.
  intros Hi Hlen. unfold slice, clamp_index.
  destruct (i <? 0) eqn:E1; [lia|]. destruct (i + 2 <? 0) eqn:E2; [lia|].
  rewrite !Z.min_l by lia. f_equal. lia.
Qed.

Lemma elem_of_range2 stop i :
  i ∈ range 0 stop 2 <-> 0 <= i < stop /\ i mod 2 = 0.
Proof.
  unfold range. rewrite list_elem_of_fmap. split.
  - intros (k & -> & Hk). apply elem_of_seq in Hk.
    assert (Hlt : Z.of_nat k < (stop - 0 + 2 - 1) / 2) by lia.
    split.
    + pose proof (Z.mul_div_le (stop - 0 + 2 - 1) 2 ltac:(lia)). lia.
    + rewrite Z.add_0_l, Z.mul_comm. apply Z.mod_mul. lia.
  - intros [[H0 Hs] Hm]. exists (Z.to_nat (i / 2)).
    pose proof (Z.div_mod i 2 ltac:(lia)) as Hdm.
    split; [lia|]. apply elem_of_seq. split; [lia|].
    assert (i / 2 < (stop - 0 + 2 - 1) / 2); [|lia].
    apply Z.div_lt_upper_bound; [lia|].
    assert (Hd : 2 * ((stop - 0 + 2 - 1) / 2) > stop - 0 + 2 - 1 - 2).
    { pose proof (Z.mod_pos_bound (stop - 0 + 2 - 1) 2 ltac:(lia)).
      pose proof (Z.div_mod (stop - 0 + 2 - 1) 2 ltac:(lia)). lia. }
    lia.
Qed.

(** The components of [file_location] for a digest free of slashes. *)
Lemma file_location_parts algorithm length hash_digest :
  is_name algorithm = true ->
  has_slash hash_digest = false ->
  file_location algorithm length hash_digest
  = {| anchor := "";
       parts := [algorithm; "l" +:+ str length]
                ++ filter (fun s => is_component s = true)
                     (map (fun i => slice hash_digest i (i + 2)) (range 0 (length - 2) 2))
                ++ if is_component hash_digest then [hash_digest] else [] |}.
Proof.
  intros Halg Hd. unfold is_name in Halg.
  apply andb_true_iff in Halg as [Hc Hs]. apply negb_true_iff in Hs.
  unfold file_location. cbv zeta.
  rewrite fold_truediv_no_slash by (intros; apply has_slash_slice; assumption).
  rewrite (truediv_no_slash _ hash_digest) by assumption.
  pose proof (is_name_length_dir length) as Hl. unfold is_name in Hl.
  apply andb_true_iff in Hl as [Hlc Hls]. apply negb_true_iff in Hls.
  rewrite (truediv_no_slash _ ("l" +:+ str length)) by assumption. rewrite Hlc.
  rewrite path_of_no_slash by assumption. rewrite Hc. simpl.
  rewrite <- ?app_assoc. reflexivity.
Qed.

Lemma range_sorted start stop step :
  0 < step -> StronglySorted Z.lt (range start stop step).
Proof.
  intros Hstep. unfold range.
  generalize (Z.to_nat ((stop - start + step - 1) / step)) as n.
  generalize 0%nat as a. intros a n. revert a.
  induction n as [|n IH]; intros a; simpl; constructor.
  - apply IH.
  - apply Forall_forall. intros x Hx.
    apply list_elem_of_fmap in Hx as (k & -> & Hk). apply elem_of_seq in Hk. nia.
Qed.

Lemma is_component_length2 s : String.length s = 2%nat -> is_component s = true.
Proof.
  destruct s as [|a [|b [|c s]]]; simpl; try discriminate. intros _.
  unfold is_component. simpl.
  destruct (Ascii.eqb a "."); reflexivity.
Qed.

Example file_location_abcde :
  path_str (file_location "sha256" 5 "abcde") = "sha256/l5/ab/cd/abcde".
Proof. reflexivity. Qed.




(* ===================================================================== *)
(** ** The file system *)
(* ===================================================================== *)

Lemma lookup_node_dir_preserved fs fs' k :
  dirs_preserved fs fs' -> lookup_node fs k = Some Dir -> lookup_node fs' k = Some Dir.
Proof. destruct k; simpl; [reflexivity | auto]. Qed.

Lemma walk_dirs_preserved fs fs' cur names d :
  dirs_preserved fs fs' -> walk fs cur names = Ok d -> walk fs' cur names = Ok d.
Proof.
  intros Hp. revert cur. induction names as [|name names IH]; intros cur; simpl; [auto|].
  destruct (lookup_node fs (step_name cur name)) as [[c|]|] eqn:Hl; try discriminate.
  rewrite (lookup_node_dir_preserved _ _ _ Hp Hl). apply IH.
Qed.

(** What a successful [write_bytes] did. *)
Lemma write_bytes_Ok p content fs fs' :
  write_bytes p content fs = (Ok tt, fs') ->
  exists name rdir d,
    rev (parts p) = name :: rdir /\ walk fs [] (rev rdir) = Ok d /\
    String.eqb name ".." = false /\ fs !! (d ++ [name]) <> Some Dir /\
    fs' = <[d ++ [name] := File content]> fs.
Proof.
  unfold write_bytes, resolve.
  destruct (rev (parts p)) as [|name rdir]; [discriminate|].
  destruct (walk fs [] (rev rdir)) as [d|e] eqn:Hwalk; [|discriminate].
  unfold step_name. destruct (String.eqb name "..") eqn:E; [discriminate|].
  assert (Hk : lookup_node fs (d ++ [name]) = fs !! (d ++ [name])).
  { destruct d; reflexivity. }
  rewrite Hk. intros Hw. exists name, rdir, d.
  destruct (fs !! (d ++ [name])) as [[c|]|] eqn:Hl;
    inversion Hw; repeat split; congruence.
Qed.

(** A file reads back as it was written. *)
Lemma read_after_write p content fs fs' :
  write_bytes p content fs = (Ok tt, fs') ->
  read_bytes p fs' = (Ok content, fs').
Proof.
  intros Hw. apply write_bytes_Ok in Hw as (name & rdir & d & Hrev & Hwalk & Hne & Hnd & ->).
  unfold read_bytes, resolve. rewrite Hrev.
  assert (Hp : dirs_preserved fs (<[d ++ [name] := File content]> fs)).
  { intros k Hk. rewrite lookup_insert_ne; [exact Hk | congruence]. }
  rewrite (walk_dirs_preserved _ _ _ _ _ Hp Hwalk).
  unfold step_name. rewrite Hne.
  assert (Hk : forall fs0 : FS, lookup_node fs0 (d ++ [name]) = fs0 !! (d ++ [name])).
  { intros fs0. destruct d; reflexivity. }
  rewrite Hk, lookup_insert_eq. reflexivity.
Qed.

(* ===================================================================== *)
(** ** The content store *)
(* ===================================================================== *)

Section Store_facts.
Variable lib : PyLib.

Lemma on_lru_setitem key value w :
  on_lru (LRU.__setitem__ key value) w = (Ok tt, with_hasher (cache_put key value (hasher w)) w).
Proof. unfold on_lru, zoom. rewrite LRU_setitem_eq. reflexivity. Qed.

Lemma entry_path_cache_put key value self content_id :
  entry_path (cache_put key value self) content_id = entry_path self content_id.
Proof. reflexivity. Qed.

(** [hash] in closed form: it reads the configuration only. *)
Lemma hash_eq content w :
  hash lib content w =
  match hexdigest lib (ContentHasher.hash_algorithm (hasher w)) content with
  | Some h => (Ok (slice h 0 (ContentHasher.hash_length (hasher w))), w)
  | None => (Raise ValueError, w)
  end.
Proof.
  unfold hash, bind, get_state, lift_option.
  destruct (hexdigest lib _ content); reflexivity.
Qed.

(** [save] in closed form. *)
Lemma save_eq content w :
  save lib content w =
  match hash lib content w with
  | (Raise e, _) => (Raise e, w)
  | (Ok content_hash, _) =>
      let self := cache_put content_hash content (hasher w) in
      let file_path := entry_path (hasher w) content_hash in
      match mkdir_parents (parent file_path) (disk w) with
      | (Raise e, fs) => (Raise e, {| hasher := self; disk := fs |})
      | (Ok _, fs) =>
          match write_bytes file_path content fs with
          | (Raise e, fs') => (Raise e, {| hasher := self; disk := fs' |})
          | (Ok _, fs') => (Ok content_hash, {| hasher := self; disk := fs' |})
          end
      end
  end.
Proof.
  unfold save. unfold bind at 1. rewrite hash_eq.
  destruct (hexdigest lib _ content) as [h|]; [|reflexivity].
  unfold bind at 1. rewrite on_lru_setitem.
  unfold bind, get_state, on_disk, zoom, ret. simpl.
  destruct (mkdir_parents _ (disk w)) as [[[]|e] fs]; [|reflexivity].
  simpl. destruct (write_bytes _ content fs) as [[[]|e] fs']; reflexivity.
Qed.

(** [load] in closed form. *)
Lemma load_eq content_id w :
  load content_id w =
  match OrderedDict.lookup content_id (LRU.cache (ContentHasher.cache (hasher w))) with
  | Some content =>
      (Ok (Some content),
       with_hasher
         (ContentHasher.with_cache
            (LRU.with_cache
               (inserted content_id content (LRU.cache (ContentHasher.cache (hasher w))))
               (ContentHasher.cache (hasher w)))
            (hasher w)) w)
  | None =>
      match read_bytes (entry_path (hasher w) content_id) (disk w) with
      | (Ok content, _) =>
          (Ok (Some content), with_hasher (cache_put content_id content (hasher w)) w)
      | (Raise FileNotFoundError, _) => (Ok None, w)
      | (Raise e, _) => (Raise e, w)
      end
  end.
Proof.
  unfold load, try_except. unfold bind at 1. unfold on_lru at 1, zoom.
  rewrite LRU_getitem_eq.
  destruct (OrderedDict.lookup content_id _) as [content|] eqn:Hl; [reflexivity|].
  simpl. destruct (decide (KeyError = KeyError)); [|congruence].
  assert (Hw : with_hasher (ContentHasher.with_cache (ContentHasher.cache (hasher w)) (hasher w)) w = w).
  { destruct w as [[] ?]; reflexivity. }
  rewrite Hw. unfold bind at 1. unfold get_state. unfold bind at 1.
  unfold on_disk at 1, zoom.
  assert (Hrd : forall p fs, (read_bytes p fs).2 = fs).
  { intros p fs. unfold read_bytes. destruct (resolve fs p) as [[k [[c|]|]]|e']; reflexivity. }
  specialize (Hrd (entry_path (hasher w) content_id) (disk w)).
  destruct (read_bytes _ (disk w)) as [[content|e1] fs]; simpl in Hrd; subst fs.
  - assert (Hd : with_disk (disk w) w = w) by (destruct w; reflexivity).
    rewrite Hd. unfold bind. rewrite on_lru_setitem. reflexivity.
  - assert (Hd : with_disk (disk w) w = w) by (destruct w; reflexivity).
    rewrite Hd. destruct e1; reflexivity.
Qed.

(** [do_GET] in closed form. *)
Lemma do_GET_eq url_path w :
  do_GET lib url_path w =
  match load (last_segment url_path) w with
  | (Ok None, w') => (Ok {| status := 404; headers := []; body := [] |}, w')
  | (Ok (Some content), w') =>
      match decode lib content with
      | None => (Raise UnicodeDecodeError, w')
      | Some location =>
          match encode_latin1 lib location with
          | None => (Raise UnicodeEncodeError, w')
          | Some _ =>
              (Ok {| status := 302; headers := [("Location", location)]; body := [] |}, w')
          end
      end
  | (Raise e, w') => (Raise e, w')
  end.
Proof.
  unfold do_GET, bind.
  destruct (load (last_segment url_path) w) as [[[content|]|e] w']; try reflexivity.
  unfold lift_option. destruct (decode lib content) as [location|]; [|reflexivity].
  unfold send_header, bind, lift_option. simpl.
  destruct (encode_latin1 lib location); reflexivity.
Qed.

Lemma lookup_cache_put (key : string) (value : bytes)
    (d : OrderedDict.t string bytes) (max_size : Z) :
  OrderedDict.lookup key (evicted max_size (inserted key value d)) = Some value
  \/ OrderedDict.lookup key (evicted max_size (inserted key value d)) = None.
Proof.
  destruct (OrderedDict.lookup key (evicted max_size (inserted key value d))) as [v|] eqn:Hl;
    [left | right; reflexivity].
  f_equal. revert Hl. unfold evicted, inserted.
  assert (Hins : forall r : OrderedDict.t string bytes,
             OrderedDict.lookup key r = None ->
             OrderedDict.lookup key (r ++ [(key, value)]) = Some v -> v = value).
  { intros r Hr. rewrite lookup_snoc, Hr.
    destruct (decide (key = key)); congruence. }
  pose proof (lookup_remove_eq (V := bytes) key d) as Hrm.
  destruct (_ >=? max_size).
  - destruct (OrderedDict.remove key d) as [|[k0 v0] r]; simpl; [discriminate|].
    simpl in Hrm. destruct (decide (k0 = key)); [discriminate|]. apply Hins, Hrm.
  - apply Hins, Hrm.
Qed.
End Store_facts.

(** C1.  When [save] returns a digest for a content, a load of that digest in
    the state it leaves returns the content; the file of the digest holds the
    content, and the cache holds either the content or nothing under the
    digest, so the load is right on either path. *)
Theorem load_save_roundtrip (lib : PyLib) (content : bytes) (digest : string) (w w' : world) :
  save lib content w = (Ok digest, w') ->
  (exists w'', load digest w' = (Ok (Some content), w''))
  /\ read_bytes (entry_path (hasher w') digest) (disk w') = (Ok content, disk w')
  /\ (OrderedDict.lookup digest (LRU.cache (ContentHasher.cache (hasher w'))) = Some content
      \/ OrderedDict.lookup digest (LRU.cache (ContentHasher.cache (hasher w'))) = None).
Proof.
  rewrite save_eq, hash_eq.
  destruct (hexdigest lib _ content) as [h|]; [|discriminate].
  cbv zeta. set (d := slice h 0 _).
  destruct (mkdir_parents _ (disk w)) as [[[]|e] fs]; [|discriminate].
  destruct (write_bytes _ content fs) as [[[]|e] fs'] eqn:Hw; [|discriminate].
  intros [= <- <-]. simpl.
  pose proof (read_after_write _ _ _ _ Hw) as Hrd.
  pose proof (lookup_cache_put d content
                (LRU.cache (ContentHasher.cache (hasher w)))
                (LRU.max_size (ContentHasher.cache (hasher w)))) as Hc.
  split; [|split; [exact Hrd | exact Hc]].
  rewrite load_eq. simpl.
  destruct Hc as [-> | ->]; [eauto|].
  change (entry_path (cache_put d content (hasher w)) d) with (entry_path (hasher w) d).
  rewrite Hrd. eauto.
Qed.

Lemma load_save_roundtrip_witness :
  let content := String.list_byte_of_string "https://example.com/x" in
  (* served from the cache *)
  (exists w'', load "68747" (save Demo.lib content (Demo.world0 100)).2
               = (Ok (Some content), w''))
  (* read back from the disk: a cache of maximum size 1 keeps nothing *)
  /\ (exists w'', load "68747" (save Demo.lib content (Demo.world0 1)).2
                  = (Ok (Some content), w'')).
Proof.
  intros content. split.
  - refine (proj1 (load_save_roundtrip Demo.lib content "68747" (Demo.world0 100) _ _)).
    vm_compute. reflexivity.
  - refine (proj1 (load_save_roundtrip Demo.lib content "68747" (Demo.world0 1) _ _)).
    vm_compute. reflexivity.
Defined.

(* ===================================================================== *)
(** ** The request handlers *)
(* ===================================================================== *)

(** C6, as stated, fails: a URL whose scheme is written in capitals is
    re-serialised with a lowercase scheme, and that form is what is saved. *)
Lemma POST_saves_original_fails : ~ (forall lib, POST_saves_original lib).
Proof.
  intros Hclaim.
  specialize (Hclaim Demo.lib (String.list_byte_of_string "HTTP://a") (Some "h")
                (Demo.world0 100) "HTTP://a" "http://a" eq_refl eq_refl ltac:(discriminate)).
  vm_compute in Hclaim. discriminate Hclaim.
Qed.

(** C6, amended.  For a body that decodes to a string whose re-serialised
    URL is not empty, the handler saves the UTF-8 bytes of the re-serialised
    URL and, when [save] returns a digest, answers 200 with a text/plain body
    [http://<Host>/<digest>]. *)
Theorem do_POST_saves_reserialized (lib : PyLib) (content : bytes)
    (host : option string) (w : world) (s url : string) :
  decode lib content = Some s ->
  geturl lib s = Some url ->
  url <> "" ->
  do_POST lib content host w = post_reply lib (encode lib url) host w.
Proof.
  intros Hdec Hurl Hne. unfold do_POST, post_reply, bind, lift_option, ret.
  rewrite Hdec. simpl. rewrite Hurl. simpl.
  destruct (String.eqb_spec url ""); [contradiction|]. simpl.
  destruct (save lib (encode lib url) w) as [[digest|e] w']; reflexivity.
Qed.

Lemma do_POST_saves_reserialized_witness :
  do_POST Demo.lib (String.list_byte_of_string "HTTP://a") (Some "h") (Demo.world0 100)
  = post_reply Demo.lib (String.list_byte_of_string "http://a") (Some "h") (Demo.world0 100)
  /\ (post_reply Demo.lib (String.list_byte_of_string "http://a") (Some "h") (Demo.world0 100)).1
     = Ok {| status := 200;
             headers := [("Content-type", "text/plain")];
             body := String.list_byte_of_string "http://h/68747" |}.
Proof.
  split.
  - exact (do_POST_saves_reserialized Demo.lib (String.list_byte_of_string "HTTP://a")
             (Some "h") (Demo.world0 100) "HTTP://a" "http://a"
             eq_refl eq_refl ltac:(discriminate)).
  - vm_compute. reflexivity.
Defined.

(** C7, as stated, fails: the constructor does not consult the provider. *)
Lemma startup_accepts_unknown_algorithm : ~ fails_fast_at_startup.
Proof.
  intros Hclaim.
  destruct (Hclaim Demo.lib "crc32" 5 (path_of "goto_state") 100 (fun _ => eq_refl)) as [e He].
  discriminate He.
Qed.

(** C7, amended.  Constructing the store with a name the digest provider does
    not recognise succeeds; the failure arises on each call of [hash] and of
    [save], which raise ValueError and leave the cache and the disk as they
    were. *)
Theorem unknown_algorithm_fails_per_request (lib : PyLib) (algorithm : string)
    (length : Z) (dir : Path) (cache_size : Z) :
  (forall content, hexdigest lib algorithm content = None) ->
  exists self,
    ContentHasher.__init__ algorithm length dir cache_size = Ok self
    /\ ContentHasher.hash_algorithm self = algorithm
    /\ forall (w : world) (content : bytes),
         ContentHasher.hash_algorithm (hasher w) = algorithm ->
         hash lib content w = (Raise ValueError, w)
         /\ save lib content w = (Raise ValueError, w).
Proof.
  intros Hnone. eexists. split; [reflexivity|]. split; [reflexivity|].
  intros w content Halg.
  assert (Hh : hash lib content w = (Raise ValueError, w)).
  { rewrite hash_eq, Halg, Hnone. reflexivity. }
  split; [exact Hh|]. rewrite save_eq, Hh. reflexivity.
Qed.

Lemma unknown_algorithm_fails_per_request_witness :
  exists self,
    ContentHasher.__init__ "crc32" 5 (path_of "goto_state") 100 = Ok self
    /\ save Demo.lib [] {| hasher := self; disk := ∅ |}
       = (Raise ValueError, {| hasher := self; disk := ∅ |}).
Proof.
  destruct (unknown_algorithm_fails_per_request Demo.lib "crc32" 5 (path_of "goto_state") 100
              (fun _ => eq_refl)) as (self & Hinit & Halg & Hreq).
  exists self. split; [exact Hinit|].
  exact (proj2 (Hreq {| hasher := self; disk := ∅ |} [] Halg)).
Defined.



(* ===================================================================== *)
(** ** Cache entries are backed by the disk *)
(* ===================================================================== *)

Lemma is_hex_char_not_slash c : is_hex_char c = true -> Ascii.eqb c "/" = false.
Proof. destruct c as [[] [] [] [] [] [] [] []]; vm_compute; congruence. Qed.

Lemma is_hex_char_not_dot c : is_hex_char c = true -> Ascii.eqb c "." = false.
Proof. destruct c as [[] [] [] [] [] [] [] []]; vm_compute; congruence. Qed.

Lemma is_hex_has_slash s : is_hex s = true -> has_slash s = false.
Proof.
  induction s as [|c s IH]; simpl; [reflexivity|].
  intros [Hc Hs]%andb_true_iff. rewrite (is_hex_char_not_slash _ Hc). simpl. auto.
Qed.

Lemma is_hex_substring a b s : is_hex s = true -> is_hex (substring a b s) = true.
Proof.
  revert a b. induction s as [|c s IH]; intros a b Hs.
  - destruct a, b; reflexivity.
  - simpl in Hs. apply andb_true_iff in Hs as [Hc Hs].
    destruct a as [|a]; destruct b as [|b]; simpl; auto.
    rewrite Hc. simpl. auto.
Qed.

Lemma is_hex_slice s lo hi : is_hex s = true -> is_hex (slice s lo hi) = true.
Proof. apply is_hex_substring. Qed.

Lemma is_hex_component s :
  is_hex s = true -> is_component s = negb (String.eqb s "").
Proof.
  destruct s as [|c s]; [reflexivity|]. simpl.
  intros [Hc _]%andb_true_iff. unfold is_component. simpl.
  rewrite (is_hex_char_not_dot _ Hc). reflexivity.
Qed.

Lemma is_hex_plain s : is_hex s = true -> s <> "" -> is_plain s = true.
Proof.
  intros Hs Hne. unfold is_plain, is_name.
  rewrite (is_hex_component _ Hs), (is_hex_has_slash _ Hs).
  destruct s as [|c s]; [contradiction|]. simpl in *.
  apply andb_true_iff in Hs as [Hc _].
  rewrite (is_hex_char_not_dot _ Hc). reflexivity.
Qed.

Lemma is_plain_name s : is_plain s = true -> is_name s = true.
Proof. unfold is_plain. intros [H _]%andb_true_iff. exact H. Qed.

Lemma is_plain_not_dotdot s : is_plain s = true -> String.eqb s ".." = false.
Proof. unfold is_plain. intros [_ H]%andb_true_iff. apply negb_true_iff, H. Qed.

Lemma is_name_component s : is_name s = true -> is_component s = true.
Proof. unfold is_name. intros [H _]%andb_true_iff. exact H. Qed.

Lemma is_name_has_slash s : is_name s = true -> has_slash s = false.
Proof. unfold is_name. intros [_ H]%andb_true_iff. apply negb_true_iff, H. Qed.

Lemma last_segment_no_slash s : has_slash (last_segment s) = false.
Proof.
  unfold last_segment. pose proof (split_slash_no_slashes s) as Hall.
  induction (split_slash s) as [|x [|y l] IH]; simpl; [reflexivity| |].
  - apply Forall_cons in Hall as [Hx _]. exact Hx.
  - apply IH. apply Forall_cons in Hall as [_ Hl]. exact Hl.
Qed.

(** *** Resolution of plain paths *)

Lemma step_name_plain cur name :
  String.eqb name ".." = false -> step_name cur name = cur ++ [name].
Proof. unfold step_name. intros ->. reflexivity. Qed.

Lemma lookup_node_snoc (fs : FS) cur name :
  lookup_node fs (cur ++ [name]) = fs !! (cur ++ [name]).
Proof. destruct cur; reflexivity. Qed.

Lemma walk_app fs cur xs ys :
  walk fs cur (xs ++ ys) =
  match walk fs cur xs with
  | Ok d => walk fs d ys
  | Raise e => Raise e
  end.
Proof.
  revert cur. induction xs as [|x xs IH]; intros cur; simpl; [reflexivity|].
  destruct (lookup_node fs (step_name cur x)) as [[c|]|]; auto.
Qed.

Lemma walk_plain_Ok fs cur names d :
  Forall (fun s => is_plain s = true) names ->
  walk fs cur names = Ok d -> d = cur ++ names.
Proof.
  intros Hall. revert cur. induction Hall as [|name names Hn _ IH]; intros cur; simpl.
  - intros [= <-]. rewrite app_nil_r. reflexivity.
  - rewrite step_name_plain by (apply is_plain_not_dotdot, Hn).
    destruct (lookup_node fs (cur ++ [name])) as [[c|]|]; try discriminate.
    intros Hw. apply IH in Hw. rewrite Hw, <- app_assoc. reflexivity.
Qed.

(** A failed resolution of a plain path: a name is missing, or a file is in
    the way. *)
Lemma walk_plain_Raise fs cur names e :
  Forall (fun s => is_plain s = true) names ->
  walk fs cur names = Raise e ->
  e = FileNotFoundError
  \/ exists k c, k `prefix_of` names /\ fs !! (cur ++ k) = Some (File c).
Proof.
  intros Hall. revert cur. induction Hall as [|name names Hn _ IH]; intros cur; simpl.
  - discriminate.
  - rewrite step_name_plain by (apply is_plain_not_dotdot, Hn).
    rewrite lookup_node_snoc.
    destruct (fs !! (cur ++ [name])) as [[c|]|] eqn:Hl.
    + intros _. right. exists [name], c. split; [|exact Hl].
      exists names. reflexivity.
    + intros Hw. apply IH in Hw as [-> | (k & c & Hk & Hf)]; [left; reflexivity|].
      right. exists (name :: k), c. split.
      * apply prefix_cons, Hk.
      * rewrite <- Hf. f_equal. rewrite <- app_assoc. reflexivity.
    + intros [= <-]. left. reflexivity.
Qed.

(** *** Creating the directories of a plain path *)

Lemma resolve_snoc fs a init name :
  String.eqb name ".." = false ->
  resolve fs {| anchor := a; parts := init ++ [name] |} =
  match walk fs [] init with
  | Ok d => Ok (d ++ [name], fs !! (d ++ [name]))
  | Raise e => Raise e
  end.
Proof.
  intros Hn. unfold resolve. simpl. rewrite rev_unit, rev_involutive.
  destruct (walk fs [] init) as [d|e]; [|reflexivity].
  rewrite step_name_plain by exact Hn. rewrite Hn, lookup_node_snoc. reflexivity.
Qed.

Lemma mkdir_post_dirs_preserved fs fs' ps :
  mkdir_post fs fs' ps -> dirs_preserved fs fs'.
Proof.
  intros [_ Hk] k Hd. destruct (Hk k) as [-> | (Hn & _ & _)]; congruence.
Qed.

Lemma mkdir_post_snoc_new fs fs1 init name :
  walk fs1 [] init = Ok init ->
  (forall k, fs1 !! k = fs !! k
             \/ (fs !! k = None /\ fs1 !! k = Some Dir /\ k `prefix_of` init ++ [name])) ->
  fs1 !! (init ++ [name]) = None ->
  String.eqb name ".." = false ->
  mkdir_post fs (<[init ++ [name] := Dir]> fs1) (init ++ [name]).
Proof.
  intros Hwalk Hk Hnone Hn. split.
  - rewrite walk_app.
    assert (Hp : dirs_preserved fs1 (<[init ++ [name] := Dir]> fs1)).
    { intros k Hd. rewrite lookup_insert_ne; [exact Hd | congruence]. }
    rewrite (walk_dirs_preserved _ _ _ _ _ Hp Hwalk). simpl.
    rewrite step_name_plain by exact Hn.
    rewrite lookup_node_snoc, lookup_insert_eq. reflexivity.
  - intros k. destruct (decide (k = init ++ [name])) as [->|Hne].
    + right. rewrite lookup_insert_eq. repeat split; [|reflexivity].
      destruct (Hk (init ++ [name])) as [He | (Hn' & _)]; congruence.
    + rewrite lookup_insert_ne by congruence. apply Hk.
Qed.

Lemma mkdir_post_snoc_old fs fs1 init name :
  walk fs1 [] init = Ok init ->
  (forall k, fs1 !! k = fs !! k
             \/ (fs !! k = None /\ fs1 !! k = Some Dir /\ k `prefix_of` init ++ [name])) ->
  fs1 !! (init ++ [name]) = Some Dir ->
  String.eqb name ".." = false ->
  mkdir_post fs fs1 (init ++ [name]).
Proof.
  intros Hwalk Hk Hdir Hn. split; [|exact Hk].
  rewrite walk_app, Hwalk. simpl. rewrite step_name_plain by exact Hn.
  rewrite lookup_node_snoc, Hdir. reflexivity.
Qed.

Lemma mkdir_parents_rev_plain a rparts fs :
  Forall (fun s => is_plain s = true) rparts ->
  (forall k c, k `prefix_of` rev rparts -> fs !! k <> Some (File c)) ->
  exists fs', mkdir_parents_rev a rparts fs = (Ok tt, fs')
              /\ mkdir_post fs fs' (rev rparts).
Proof.
  intros Hall. revert fs. induction Hall as [|name rinit Hname Hall IH]; intros fs Hfiles.
  - exists fs. split; [reflexivity|]. split; [reflexivity | auto].
  - assert (Hn := is_plain_not_dotdot _ Hname).
    assert (Hplain : Forall (fun s => is_plain s = true) (rev rinit)).
    { apply Forall_rev. exact Hall. }
    simpl rev in *. set (init := rev rinit) in *.
    cbn [mkdir_parents_rev]. simpl rev. fold init.
    unfold os_mkdir at 1. unfold is_dir. rewrite resolve_snoc by exact Hn.
    destruct (walk fs [] init) as [d|e] eqn:Hwalk.
    + apply walk_plain_Ok in Hwalk as Hd; [|exact Hplain]. simpl in Hd. subst d.
      destruct (fs !! (init ++ [name])) as [[c|]|] eqn:Hl.
      * exfalso. apply (Hfiles (init ++ [name]) c); [reflexivity | exact Hl].
      * exists fs. split; [|apply mkdir_post_snoc_old; auto].
        unfold is_dir. rewrite resolve_snoc by exact Hn. rewrite Hwalk, Hl. reflexivity.
      * eexists. split; [reflexivity|].
        apply mkdir_post_snoc_new; auto.
    + apply walk_plain_Raise in Hwalk as He; [|exact Hplain].
      destruct He as [-> | (k & c & Hk & Hf)].
      2:{ exfalso. apply (Hfiles k c); [|exact Hf].
          etransitivity; [exact Hk | apply prefix_app_r; reflexivity]. }
      destruct (IH fs) as (fs1 & Hrec & Hwalk1 & Hk1).
      { intros k c Hk. apply Hfiles. etransitivity; [exact Hk|].
        apply prefix_app_r. reflexivity. }
      unfold bind. rewrite Hrec.
      assert (Hk1' : forall k, fs1 !! k = fs !! k
                 \/ (fs !! k = None /\ fs1 !! k = Some Dir /\ k `prefix_of` init ++ [name])).
      { intros k. destruct (Hk1 k) as [?|(? & ? & Hp)]; [left; assumption|].
        right. repeat split; try assumption.
        etransitivity; [exact Hp | apply prefix_app_r; reflexivity]. }
      unfold mkdir_exist_ok, os_mkdir, is_dir. rewrite resolve_snoc by exact Hn.
      rewrite Hwalk1.
      destruct (fs1 !! (init ++ [name])) as [[c|]|] eqn:Hl.
      * exfalso. destruct (Hk1 (init ++ [name])) as [He | (_ & Hd & _)]; [|congruence].
        apply (Hfiles (init ++ [name]) c); [reflexivity | congruence].
      * exists fs1. split; [|apply mkdir_post_snoc_old; auto].
        unfold is_dir. rewrite resolve_snoc by exact Hn. rewrite Hwalk1, Hl. reflexivity.
      * eexists. split; [reflexivity|].
        apply mkdir_post_snoc_new; auto.
Qed.

Lemma mkdir_parents_plain p fs :
  Forall (fun s => is_plain s = true) (parts p) ->
  (forall k c, k `prefix_of` parts p -> fs !! k <> Some (File c)) ->
  exists fs', mkdir_parents p fs = (Ok tt, fs') /\ mkdir_post fs fs' (parts p).
Proof.
  intros Hall Hfiles. unfold mkdir_parents.
  destruct (mkdir_parents_rev_plain (anchor p) (rev (parts p)) fs) as (fs' & Hm & Hpost).
  - apply Forall_rev. exact Hall.
  - rewrite rev_involutive. exact Hfiles.
  - rewrite rev_involutive in Hpost. eauto.
Qed.

(** *** The layout of the store *)

Lemma substring_zero a s : substring a 0 s = "".
Proof.
  revert a. induction s as [|c s IH]; intros [|a]; simpl; auto.
Qed.

Lemma substring_nonempty a m s :
  (a < String.length s)%nat -> (1 <= m)%nat -> substring a m s <> "".
Proof.
  revert a m. induction s as [|c s IH]; intros a m Ha Hm; simpl in Ha; [lia|].
  destruct a as [|a]; destruct m as [|m]; simpl; try lia; try discriminate.
  apply IH; lia.
Qed.

Lemma is_component_substring a b s :
  is_component s = false -> is_component (substring a b s) = false.
Proof.
  destruct s as [|c [|c' s]].
  - intros _. destruct a, b; reflexivity.
  - intros Hs. destruct a as [|a]; destruct b as [|b]; simpl; try reflexivity.
    + destruct b; exact Hs.
    + destruct a; reflexivity.
    + destruct a; reflexivity.
  - unfold is_component. simpl. destruct (Ascii.eqb c "."); discriminate.
Qed.

(** A slice of a hexadecimal string is kept as a component exactly when it
    starts inside the string. *)
Lemma is_component_hex_slice d i :
  is_hex d = true -> 0 <= i ->
  is_component (slice d i (i + 2)) = (i <? len d).
Proof.
  intros Hd Hi. rewrite is_hex_component by (apply is_hex_slice, Hd).
  unfold slice, clamp_index.
  destruct (i <? 0) eqn:E1; [lia|]. destruct (i + 2 <? 0) eqn:E2; [lia|].
  destruct (i <? len d) eqn:E3.
  - apply negb_true_iff, String.eqb_neq, substring_nonempty; unfold len in *; lia.
  - replace (Z.to_nat (Z.min (i + 2) (len d) - Z.min i (len d))) with 0%nat by lia.
    rewrite substring_zero. reflexivity.
Qed.

Section Layout.
Variables (algorithm : string) (length : Z) (dir : Path).

Hypothesis algorithm_plain : is_plain algorithm = true.
Hypothesis dir_plain : Forall (fun s => is_plain s = true) (parts dir).

Lemma entry_path_parts self content_id :
  configured algorithm length dir self ->
  has_slash content_id = false ->
  entry_path self content_id
  = {| anchor := anchor dir;
       parts := base algorithm length dir ++ shards length content_id
                ++ if is_component content_id then [content_id] else [] |}.
Proof.
  intros (Ha & Hl & Hd) Hs. unfold entry_path. rewrite Ha, Hl, Hd.
  rewrite file_location_parts by (apply is_plain_name, algorithm_plain || exact Hs).
  unfold joinpath, base, shards. simpl. rewrite <- !app_assoc. reflexivity.
Qed.

Lemma shards_plain d :
  is_hex d = true -> Forall (fun s => is_plain s = true) (shards length d).
Proof.
  intros Hd. apply Forall_forall. intros s Hs. unfold shards in Hs.
  apply list_elem_of_filter in Hs as [Hc Hs].
  apply list_elem_of_fmap in Hs as (i & -> & _).
  apply is_hex_plain; [apply is_hex_slice, Hd|].
  intros He. rewrite He in Hc. discriminate Hc.
Qed.

Lemma shards_length d d' :
  is_hex d = true -> is_hex d' = true -> String.length d = String.length d' ->
  List.length (shards length d) = List.length (shards length d').
Proof.
  intros Hd Hd' Hlen. unfold shards.
  assert (Hr : Forall (fun i => 0 <= i) (range 0 (length - 2) 2)).
  { apply Forall_forall. intros i Hi. apply elem_of_range2 in Hi. lia. }
  induction Hr as [|i r Hi _ IH]; [reflexivity|].
  rewrite !map_cons, !filter_cons.
  pose proof (is_component_hex_slice d i Hd Hi) as H1.
  pose proof (is_component_hex_slice d' i Hd' Hi) as H2.
  assert (He : is_component (slice d i (i + 2)) = is_component (slice d' i (i + 2))).
  { rewrite H1, H2. unfold len. rewrite Hlen. reflexivity. }
  destruct (decide (is_component (slice d i (i + 2)) = true)) as [Ht|Hf];
    destruct (decide (is_component (slice d' i (i + 2)) = true)) as [Ht'|Hf'];
    try congruence; simpl; rewrite IH; reflexivity.
Qed.

Lemma shards_not_component content_id :
  is_component content_id = false -> shards length content_id = [].
Proof.
  intros Hc. unfold shards.
  induction (range 0 (length - 2) 2) as [|i r IH]; [reflexivity|].
  rewrite map_cons, filter_cons_False; [exact IH|].
  unfold slice. rewrite is_component_substring by exact Hc. discriminate.
Qed.

Lemma base_plain : Forall (fun s => is_plain s = true) (base algorithm length dir).
Proof.
  unfold base. apply Forall_app. split; [exact dir_plain|].
  repeat constructor; [exact algorithm_plain|].
  unfold is_plain. rewrite is_name_length_dir. reflexivity.
Qed.
End Layout.

(** *** File operations never empty a disk *)

Lemma os_mkdir_nonempty (p : Path) (fs : FS) : fs <> ∅ -> (os_mkdir p fs).2 <> ∅.
Proof.
  intros Hne. unfold os_mkdir.
  destruct (resolve fs p) as [[k [nd|]]|e]; simpl;
    first [exact Hne | apply insert_non_empty].
Qed.

Lemma mkdir_exist_ok_nonempty (p : Path) (fs : FS) : fs <> ∅ -> (mkdir_exist_ok p fs).2 <> ∅.
Proof.
  intros Hne. unfold mkdir_exist_ok.
  pose proof (os_mkdir_nonempty p fs Hne) as H1.
  destruct (os_mkdir p fs) as [[[]|e] fs1]; simpl in *; [exact H1|].
  destruct e; try (destruct (is_dir fs1 p)); exact H1.
Qed.

Lemma mkdir_parents_rev_nonempty (a : string) (rparts : list string) (fs : FS) :
  fs <> ∅ -> (mkdir_parents_rev a rparts fs).2 <> ∅.
Proof.
  revert fs. induction rparts as [|name rparent IH]; intros fs Hne.
  - cbn [mkdir_parents_rev].
    pose proof (os_mkdir_nonempty {| anchor := a; parts := rev [] |} fs Hne) as H1.
    destruct (os_mkdir _ fs) as [[[]|e] fs1]; simpl in *; [exact H1|].
    destruct e; try (destruct (is_dir fs1 _)); exact H1.
  - cbn [mkdir_parents_rev].
    pose proof (os_mkdir_nonempty {| anchor := a; parts := rev (name :: rparent) |} fs Hne) as H1.
    destruct (os_mkdir _ fs) as [[[]|e] fs1]; simpl in H1; [exact H1|].
    destruct e; try (destruct (is_dir fs1 _); exact H1).
    unfold bind. specialize (IH fs1 H1).
    destruct (mkdir_parents_rev a rparent fs1) as [[[]|e] fs2]; simpl in IH; [|exact IH].
    apply mkdir_exist_ok_nonempty, IH.
Qed.

Lemma mkdir_parents_nonempty (p : Path) (fs : FS) : fs <> ∅ -> (mkdir_parents p fs).2 <> ∅.
Proof. apply mkdir_parents_rev_nonempty. Qed.

Lemma write_bytes_nonempty (p : Path) (content : bytes) (fs : FS) :
  fs <> ∅ -> (write_bytes p content fs).2 <> ∅.
Proof.
  intros Hne. unfold write_bytes.
  destruct (resolve fs p) as [[k [[c|]|]]|e]; simpl;
    first [exact Hne | apply insert_non_empty].
Qed.

(** *** Reading a file *)

Lemma read_bytes_Ok_inv p fs content fs' :
  read_bytes p fs = (Ok content, fs') ->
  fs' = fs
  /\ exists name init d,
       parts p = init ++ [name] /\ String.eqb name ".." = false
       /\ walk fs [] init = Ok d /\ fs !! (d ++ [name]) = Some (File content).
Proof.
  unfold read_bytes, resolve.
  destruct (rev (parts p)) as [|name rdir] eqn:Hrev; [discriminate|].
  assert (Hparts : parts p = rev rdir ++ [name]).
  { rewrite <- (rev_involutive (parts p)), Hrev. reflexivity. }
  destruct (walk fs [] (rev rdir)) as [d|e] eqn:Hwalk; [|discriminate].
  destruct (String.eqb name "..") eqn:Hn; [discriminate|].
  rewrite step_name_plain by exact Hn. rewrite lookup_node_snoc.
  destruct (fs !! (d ++ [name])) as [[c|]|] eqn:Hl; try discriminate.
  intros [= <- <-]. split; [reflexivity|].
  exists name, (rev rdir), d. auto.
Qed.

Lemma read_bytes_Ok_intro p fs name init d content :
  parts p = init ++ [name] -> String.eqb name ".." = false ->
  walk fs [] init = Ok d -> fs !! (d ++ [name]) = Some (File content) ->
  read_bytes p fs = (Ok content, fs).
Proof.
  intros Hparts Hn Hwalk Hl. destruct p as [a ps]. simpl in Hparts. subst ps.
  unfold read_bytes. rewrite resolve_snoc by exact Hn. rewrite Hwalk, Hl. reflexivity.
Qed.

(** *** Entries of the cache after a read or a write *)

Lemma elem_of_inserted {K V : Type} `{EqDecision K} (key : K) (value : V) d x :
  x ∈ inserted key value d -> x = (key, value) \/ (x ∈ d /\ x.1 <> key).
Proof.
  unfold inserted, OrderedDict.remove. rewrite elem_of_app, list_elem_of_filter.
  intros [[Hne Hin] | Hx%list_elem_of_singleton]; auto.
Qed.

Lemma elem_of_evicted {K V : Type} (max_size : Z) (d : OrderedDict.t K V) x :
  x ∈ evicted max_size d -> x ∈ d.
Proof.
  unfold evicted. destruct (_ >=? max_size); [|auto].
  destruct d; simpl; [auto | apply list_elem_of_further].
Qed.

(** *** The invariant of the store *)

Section Backed.
Variable lib : PyLib.
Variables (algorithm : string) (length : Z) (dir : Path) (n : nat).

Hypothesis algorithm_plain : is_plain algorithm = true.
Hypothesis dir_plain : Forall (fun s => is_plain s = true) (parts dir).

Hypothesis n_positive : (1 <= n)%nat.
Hypothesis digest_shape :
  forall content h,
    hexdigest lib algorithm content = Some h -> digest_ok n (slice h 0 length).

Local Abbreviation key_of := (entry_key algorithm length dir).
Local Abbreviation digest_ok := (digest_ok n).
Local Abbreviation store_inv := (store_inv algorithm length dir n).

Lemma digest_ok_plain d : digest_ok d -> is_plain d = true.
Proof.
  intros [Hh Hl]. apply is_hex_plain; [exact Hh|].
  intros ->. simpl in Hl. lia.
Qed.

Lemma key_of_length d d' :
  digest_ok d -> digest_ok d' -> List.length (key_of d) = List.length (key_of d').
Proof.
  intros [Hh Hl] [Hh' Hl']. unfold entry_key. rewrite !length_app.
  rewrite (shards_length length d d') by congruence. reflexivity.
Qed.

Lemma key_of_plain d : digest_ok d -> Forall (fun s => is_plain s = true) (key_of d).
Proof.
  intros Hd. unfold entry_key. apply Forall_app. split.
  - apply base_plain; assumption.
  - apply Forall_app. split; [apply shards_plain, Hd|].
    repeat constructor. apply digest_ok_plain, Hd.
Qed.

Lemma entry_path_digest self d :
  configured algorithm length dir self -> digest_ok d ->
  entry_path self d = {| anchor := anchor dir; parts := key_of d |}.
Proof.
  intros Hc Hd. pose proof (digest_ok_plain d Hd) as Hp.
  rewrite (entry_path_parts algorithm length dir) by
    (assumption || apply is_name_has_slash, is_plain_name, Hp).
  rewrite (is_name_component d) by (apply is_plain_name, Hp).
  reflexivity.
Qed.

(** The cached entries of other identifiers still read the same after the
    file of [d] is written. *)
Lemma read_other_entry self fs fs1 d content content_id v :
  configured algorithm length dir self ->
  (forall k c, fs !! k = Some (File c) -> exists d, digest_ok d /\ k = key_of d) ->
  (forall k d, fs !! k = Some Dir -> digest_ok d ->
               (List.length k < List.length (key_of d))%nat) ->
  digest_ok d ->
  dirs_preserved fs fs1 ->
  (forall k c, fs !! k = Some (File c) -> fs1 !! k = Some (File c)) ->
  has_slash content_id = false ->
  content_id <> d ->
  read_bytes (entry_path self content_id) fs = (Ok v, fs) ->
  read_bytes (entry_path self content_id) (<[key_of d := File content]> fs1)
  = (Ok v, <[key_of d := File content]> fs1).
Proof.
  intros Hc Hfiles Hdirs Hd Hpres Hkeep Hs Hne Hread.
  apply read_bytes_Ok_inv in Hread as (_ & name & init & dd & Hparts & Hn & Hwalk & Hl).
  apply (read_bytes_Ok_intro _ _ name init dd); auto.
  - apply (walk_dirs_preserved fs); [|exact Hwalk].
    intros k Hk. rewrite lookup_insert_ne; [apply Hpres, Hk|].
    intros <-. pose proof (Hdirs _ _ Hk Hd). lia.
  - rewrite lookup_insert_ne; [apply Hkeep, Hl|]. intros Heq.
    rewrite (entry_path_parts algorithm length dir) in Hparts by assumption.
    simpl in Hparts.
    destruct (is_component content_id) eqn:E.
    + rewrite !app_assoc in Hparts. apply app_inj_tail in Hparts as [_ Hname].
      unfold entry_key in Heq. rewrite !app_assoc in Heq.
      apply app_inj_tail in Heq as [_ Hname']. congruence.
    + rewrite (shards_not_component _ _ E), !app_nil_r in Hparts.
      unfold base in Hparts. change [algorithm; "l" +:+ str length]
        with ([algorithm] ++ ["l" +:+ str length]) in Hparts.
      rewrite app_assoc in Hparts. apply app_inj_tail in Hparts as [Hinit Hname].
      unfold entry_key in Heq. rewrite !app_assoc in Heq.
      apply app_inj_tail in Heq as [_ Hname'].
      destruct Hd as [Hh _].
      assert (Hdl : d = "l" +:+ str length) by congruence.
      rewrite Hdl in Hh. discriminate Hh.
Qed.

(** [save] keeps the invariant, and succeeds whenever the digest exists. *)
Lemma save_store_inv content w :
  store_inv w ->
  store_inv (save lib content w).2
  /\ (forall h, hexdigest lib algorithm content = Some h ->
                (save lib content w).1 = Ok (slice h 0 length)).
Proof.
  intros [Hc Hfiles Hdirs Hcache Hbase]. rewrite save_eq, hash_eq.
  destruct Hc as (Ha & Hl & Hdir). rewrite Ha, Hl.
  destruct (hexdigest lib algorithm content) as [h|] eqn:Hh.
  2:{ split; [|discriminate]. simpl. split; auto. split; auto. }
  set (d := slice h 0 length). assert (Hd : digest_ok d) by (apply digest_shape in Hh; exact Hh).
  assert (Hconf : configured algorithm length dir (hasher w)) by (split; auto).
  cbv zeta. rewrite (entry_path_digest _ d Hconf Hd).
  assert (Hparent : parent {| anchor := anchor dir; parts := key_of d |}
                    = {| anchor := anchor dir; parts := base algorithm length dir ++ shards length d |}).
  { unfold parent, entry_key. simpl. rewrite app_assoc, removelast_last. reflexivity. }
  rewrite Hparent.
  assert (Hkeylen : List.length (key_of d)
                    = S (List.length (base algorithm length dir ++ shards length d))).
  { unfold entry_key. rewrite app_assoc, length_app. simpl. lia. }
  destruct (mkdir_parents_plain
              {| anchor := anchor dir; parts := base algorithm length dir ++ shards length d |}
              (disk w)) as (fs1 & Hmk & Hwalk1 & Hk1).
  { simpl. apply Forall_app. split; [apply base_plain; assumption | apply shards_plain, Hd]. }
  { simpl. intros k c Hk Hf. destruct (Hfiles _ _ Hf) as (d' & Hd' & ->).
    apply prefix_length in Hk. rewrite (key_of_length d' d Hd' Hd) in Hk. lia. }
  rewrite Hmk. simpl in Hwalk1.
  assert (Hkey1 : fs1 !! key_of d <> Some Dir).
  { destruct (Hk1 (key_of d)) as [He | (_ & _ & Hp)].
    - rewrite He. intros Hdd. pose proof (Hdirs _ _ Hdd Hd). lia.
    - apply prefix_length in Hp. simpl in Hp. lia. }
  assert (Hwrite : write_bytes {| anchor := anchor dir; parts := key_of d |} content fs1
                   = (Ok tt, <[key_of d := File content]> fs1)).
  { unfold write_bytes, entry_key. rewrite app_assoc.
    rewrite resolve_snoc by (apply is_plain_not_dotdot, digest_ok_plain, Hd).
    rewrite Hwalk1. rewrite <- app_assoc. fold (key_of d).
    destruct (fs1 !! key_of d) as [[c|]|]; try reflexivity. congruence. }
  rewrite Hwrite. split; [|intros h' [= <-]; reflexivity]. simpl.
  assert (Hpres : dirs_preserved (disk w) fs1).
  { intros k Hk. destruct (Hk1 k) as [-> | (Hn & _ & _)]; congruence. }
  assert (Hkeep : forall k c, disk w !! k = Some (File c) -> fs1 !! k = Some (File c)).
  { intros k c Hk. destruct (Hk1 k) as [-> | (Hn & _ & _)]; congruence. }
  split; simpl.
  - exact Hconf.
  - intros k c. destruct (decide (k = key_of d)) as [->|Hne]; [eauto|].
    rewrite lookup_insert_ne by congruence. intros Hf.
    destruct (Hk1 k) as [He | (_ & Hdd & _)]; [|congruence].
    apply (Hfiles k c). congruence.
  - intros k d' Hk Hd'. destruct (decide (k = key_of d)) as [->|Hne].
    { rewrite lookup_insert_eq in Hk. discriminate Hk. }
    rewrite lookup_insert_ne in Hk by congruence.
    destruct (Hk1 k) as [He | (_ & _ & Hp)].
    + apply Hdirs; congruence.
    + apply prefix_length in Hp. simpl in Hp.
      rewrite (key_of_length d' d Hd' Hd). lia.
  - intros content_id v Hin.
    apply elem_of_evicted, elem_of_inserted in Hin as [[= -> ->] | [Hin Hne]].
    + split; [apply is_name_has_slash, is_plain_name, digest_ok_plain, Hd|].
      change (entry_path (cache_put d content (hasher w)) d) with (entry_path (hasher w) d).
      rewrite (entry_path_digest _ d Hconf Hd).
      exact (read_after_write _ _ _ _ Hwrite).
    + destruct (Hcache _ _ Hin) as [Hs Hread]. split; [exact Hs|].
      change (entry_path (cache_put d content (hasher w)) content_id)
        with (entry_path (hasher w) content_id).
      apply (read_other_entry (hasher w) (disk w)); auto.
  - intros _. rewrite walk_app in Hwalk1.
    destruct (walk fs1 [] (base algorithm length dir)) as [d0|e] eqn:Hw0; [|discriminate].
    apply walk_plain_Ok in Hw0 as Hd0; [|apply base_plain; assumption].
    simpl in Hd0. subst d0.
    apply (walk_dirs_preserved fs1); [|exact Hw0].
    intros k Hk. rewrite lookup_insert_ne; [exact Hk | congruence].
Qed.

(** A load keeps the invariant. *)
Lemma load_store_inv content_id w :
  has_slash content_id = false ->
  store_inv w -> store_inv (load content_id w).2.
Proof.
  intros Hs [Hc Hfiles Hdirs Hcache Hbase]. rewrite load_eq.
  destruct (OrderedDict.lookup content_id _) as [v|] eqn:Hl.
  - simpl. split; simpl; auto.
    intros id' v' Hin. apply elem_of_inserted in Hin as [[= -> ->] | [Hin _]].
    + apply (Hcache content_id v), lookup_Some_elem, Hl.
    + apply (Hcache id' v'), Hin.
  - destruct (read_bytes _ (disk w)) as [[content|e] fs] eqn:Hread.
    + apply read_bytes_Ok_inv in Hread as Hfs. destruct Hfs as [-> _].
      simpl. split; simpl; auto.
      intros id' v' Hin.
      apply elem_of_evicted, elem_of_inserted in Hin as [[= -> ->] | [Hin _]].
      * split; [exact Hs | exact Hread].
      * apply (Hcache id' v'), Hin.
    + destruct e; simpl; split; auto.
Qed.

Lemma do_GET_state url_path w :
  (do_GET lib url_path w).2 = (load (last_segment url_path) w).2.
Proof.
  rewrite do_GET_eq.
  destruct (load (last_segment url_path) w) as [[[content|]|e] w']; try reflexivity.
  destruct (decode lib content) as [location|]; [|reflexivity].
  destruct (encode_latin1 lib location); reflexivity.
Qed.

Lemma serve_store_inv r w : store_inv w -> store_inv (serve lib w r).
Proof.
  intros Hinv. destruct r as [content|url_path]; simpl.
  - apply save_store_inv, Hinv.
  - rewrite do_GET_state. apply load_store_inv; [apply last_segment_no_slash | exact Hinv].
Qed.

Lemma serve_all_store_inv rs w : store_inv w -> store_inv (serve_all lib rs w).
Proof.
  revert w. induction rs as [|r rs IH]; intros w Hinv; [exact Hinv|].
  simpl. apply IH, serve_store_inv, Hinv.
Qed.

Lemma initial_store_inv cache_size :
  store_inv {| hasher := {| ContentHasher.hash_algorithm := algorithm;
                            ContentHasher.hash_length := length;
                            ContentHasher.state_dir := dir;
                            ContentHasher.cache := LRU.__init__ cache_size |};
               disk := ∅ |}.
Proof.
  split; simpl.
  - repeat split.
  - intros k c Hk. rewrite lookup_empty in Hk. discriminate.
  - intros k d Hk. rewrite lookup_empty in Hk. discriminate.
  - intros id v Hin. inversion Hin.
  - intros Hne. exfalso. apply Hne. reflexivity.
Qed.

(** The empty identifier is never cached: its path is the directory of all
    entries, which is not a file. *)
Lemma empty_id_not_cached w :
  store_inv w ->
  OrderedDict.lookup "" (LRU.cache (ContentHasher.cache (hasher w))) = None.
Proof.
  intros [Hc Hfiles Hdirs Hcache Hbase].
  destruct (OrderedDict.lookup "" _) as [v|] eqn:Hl; [exfalso | reflexivity].
  apply lookup_Some_elem, Hcache in Hl as [_ Hread].
  rewrite (entry_path_parts algorithm length dir) in Hread by (assumption || reflexivity).
  rewrite (shards_not_component length "" eq_refl) in Hread.
  simpl in Hread. rewrite !app_nil_r in Hread.
  apply read_bytes_Ok_inv in Hread as (_ & name & init & d0 & Hparts & Hn & Hwalk & Hf).
  simpl in Hparts. unfold base in Hparts.
  change [algorithm; "l" +:+ str length] with ([algorithm] ++ ["l" +:+ str length]) in Hparts.
  rewrite app_assoc in Hparts. apply app_inj_tail in Hparts as [<- <-].
  apply walk_plain_Ok in Hwalk.
  2:{ apply Forall_app. split; [exact dir_plain | repeat constructor; exact algorithm_plain]. }
  simpl in Hwalk. subst d0.
  destruct (Hfiles _ _ Hf) as (d & Hd & Hkey).
  apply (f_equal List.length) in Hkey. unfold entry_key, base in Hkey.
  rewrite !length_app in Hkey. simpl in Hkey. lia.
Qed.

(** Once something is stored, the path of the empty identifier is a
    directory. *)
Lemma read_empty_id_raises w :
  store_inv w -> disk w <> ∅ ->
  read_bytes (entry_path (hasher w) "") (disk w) = (Raise IsADirectoryError, disk w).
Proof.
  intros [Hc Hfiles Hdirs Hcache Hbase] Hne. specialize (Hbase Hne).
  rewrite (entry_path_parts algorithm length dir) by (assumption || reflexivity).
  rewrite (shards_not_component length "" eq_refl).
  simpl. rewrite !app_nil_r.
  unfold base in *.
  change [algorithm; "l" +:+ str length] with ([algorithm] ++ ["l" +:+ str length]) in *.
  rewrite app_assoc in *. rewrite walk_app in Hbase.
  destruct (walk (disk w) [] (parts dir ++ [algorithm])) as [d0|e] eqn:Hw0; [|discriminate].
  simpl in Hbase. assert (Hn : String.eqb ("l" +:+ str length) ".." = false) by reflexivity.
  rewrite step_name_plain in Hbase by exact Hn. rewrite lookup_node_snoc in Hbase.
  unfold read_bytes. rewrite resolve_snoc by exact Hn. rewrite Hw0.
  destruct (disk w !! (d0 ++ ["l" +:+ str length])) as [[c|]|]; try discriminate.
  reflexivity.
Qed.

(** Then the request path [/] makes [do_GET] raise IsADirectoryError. *)
Lemma do_GET_root_raises w :
  store_inv w -> disk w <> ∅ ->
  do_GET lib "/" w = (Raise IsADirectoryError, w).
Proof.
  intros Hinv Hne. rewrite do_GET_eq. change (last_segment "/") with "".
  rewrite load_eq, (empty_id_not_cached w Hinv), (read_empty_id_raises w Hinv Hne).
  reflexivity.
Qed.

Lemma serve_disk_nonempty r w : disk w <> ∅ -> disk (serve lib w r) <> ∅.
Proof.
  intros Hne. destruct r as [content|url_path]; simpl.
  - rewrite save_eq, hash_eq.
    destruct (hexdigest lib _ content) as [h|]; [|exact Hne]. cbv zeta.
    pose proof (mkdir_parents_nonempty
                  (parent (entry_path (hasher w)
                     (slice h 0 (ContentHasher.hash_length (hasher w))))) (disk w) Hne) as H1.
    destruct (mkdir_parents _ (disk w)) as [[[]|e] fs1]; [|exact H1].
    pose proof (write_bytes_nonempty
                  (entry_path (hasher w)
                     (slice h 0 (ContentHasher.hash_length (hasher w)))) content fs1 H1) as H2.
    destruct (write_bytes _ content fs1) as [[[]|e] fs2]; exact H2.
  - rewrite do_GET_state, load_eq.
    destruct (OrderedDict.lookup _ _); [exact Hne|].
    destruct (read_bytes _ (disk w)) as [[c|[]] fs]; exact Hne.
Qed.

(** A save whose digest exists leaves a disk that is not empty. *)
Lemma save_disk_nonempty content h w :
  store_inv w ->
  hexdigest lib algorithm content = Some h ->
  disk (save lib content w).2 <> ∅.
Proof.
  intros Hinv Hh. pose proof (proj2 (save_store_inv content w Hinv) h Hh) as Hok.
  rewrite save_eq in *. destruct (hash lib content w) as [[d|e] w0]; [|discriminate Hok].
  cbv zeta in *.
  destruct (mkdir_parents _ (disk w)) as [[[]|e] fs1]; [|discriminate Hok].
  destruct (write_bytes _ content fs1) as [[[]|e] fs2] eqn:Hw; [|discriminate Hok].
  apply write_bytes_Ok in Hw as (name & rdir & d0 & _ & _ & _ & _ & ->).
  simpl. apply insert_non_empty.
Qed.
Lemma serve_all_disk_nonempty rs w : disk w <> ∅ -> disk (serve_all lib rs w) <> ∅.
Proof.
  revert w. induction rs as [|r rs IH]; intros w Hne; [exact Hne|].
  simpl. apply IH, serve_disk_nonempty, Hne.
Qed.
End Backed.


(* ===================================================================== *)
(** ** Cache entries are backed by the disk, for every configuration *)
(* ===================================================================== *)

(** *** Creating directories only adds directories *)

Lemma only_new_dirs_refl fs : only_new_dirs fs fs.
Proof. intros k. left. reflexivity. Qed.

Lemma only_new_dirs_trans fs1 fs2 fs3 :
  only_new_dirs fs1 fs2 -> only_new_dirs fs2 fs3 -> only_new_dirs fs1 fs3.
Proof.
  intros H12 H23 k. destruct (H12 k) as [E12 | [N1 D2]], (H23 k) as [E23 | [N2 D3]].
  - left. congruence.
  - right. split; congruence.
  - right. split; congruence.
  - congruence.
Qed.

Lemma os_mkdir_only_new_dirs p fs : only_new_dirs fs (os_mkdir p fs).2.
Proof.
  unfold os_mkdir. destruct (resolve fs p) as [[k [nd|]]|e] eqn:Hr;
    simpl; try apply only_new_dirs_refl.
  assert (Hk : fs !! k = None).
  { unfold resolve in Hr. destruct (rev (parts p)) as [|name rdir]; [discriminate|].
    destruct (walk fs [] (rev rdir)) as [d|]; [|discriminate].
    cbv zeta in Hr. destruct (String.eqb name ".."); [discriminate|].
    injection Hr as <- Hl. destruct (step_name d name); [discriminate | exact Hl]. }
  intros k0. destruct (decide (k0 = k)) as [->|Hne].
  - right. rewrite lookup_insert_eq. split; [exact Hk | reflexivity].
  - left. apply lookup_insert_ne. congruence.
Qed.

Lemma mkdir_exist_ok_only_new_dirs p fs : only_new_dirs fs (mkdir_exist_ok p fs).2.
Proof.
  unfold mkdir_exist_ok. pose proof (os_mkdir_only_new_dirs p fs) as H.
  destruct (os_mkdir p fs) as [[[]|e] fs1]; simpl in *; [exact H|].
  destruct e; try (destruct (is_dir fs1 p)); exact H.
Qed.

Lemma mkdir_parents_rev_only_new_dirs a rparts fs :
  only_new_dirs fs (mkdir_parents_rev a rparts fs).2.
Proof.
  revert fs. induction rparts as [|x rparent IH]; intros fs; simpl.
  - pose proof (os_mkdir_only_new_dirs {| anchor := a; parts := [] |} fs) as H.
    simpl in H.
    destruct (os_mkdir {| anchor := a; parts := [] |} fs) as [[[]|e] fs1]; simpl in *;
      [exact H|].
    destruct e; try (destruct (is_dir fs1 _)); exact H.
  - pose proof (os_mkdir_only_new_dirs {| anchor := a; parts := rev rparent ++ [x] |} fs) as H.
    destruct (os_mkdir {| anchor := a; parts := rev rparent ++ [x] |} fs)
      as [[[]|e] fs1]; simpl in *; [exact H|].
    destruct e; try (destruct (is_dir fs1 _); exact H).
    unfold bind. specialize (IH fs1).
    destruct (mkdir_parents_rev a rparent fs1) as [[[]|e] fs2]; simpl in *.
    + eapply only_new_dirs_trans; [exact H|].
      eapply only_new_dirs_trans; [exact IH|]. apply mkdir_exist_ok_only_new_dirs.
    + eapply only_new_dirs_trans; eassumption.
Qed.

Lemma mkdir_parents_only_new_dirs p fs : only_new_dirs fs (mkdir_parents p fs).2.
Proof. apply mkdir_parents_rev_only_new_dirs. Qed.

(** *** The last component of the path of an entry *)

Lemma joinpath_parts_suffix p q : exists pre, parts (joinpath p q) = pre ++ parts q.
Proof.
  unfold joinpath. destruct (String.eqb (anchor q) ""); simpl.
  - exists (parts p). reflexivity.
  - exists []. reflexivity.
Qed.

(** The path of an identifier free of slashes ends with the identifier, or,
    for the identifiers pathlib drops, with the component [l<L>]. *)
Lemma entry_path_last self content_id :
  has_slash content_id = false ->
  exists pre,
    parts (entry_path self content_id)
    = pre ++ [if is_component content_id then content_id
              else "l" +:+ str (ContentHasher.hash_length self)].
Proof.
  intros Hs. unfold entry_path.
  destruct (joinpath_parts_suffix (ContentHasher.state_dir self)
              (file_location (ContentHasher.hash_algorithm self)
                 (ContentHasher.hash_length self) content_id)) as (pre & ->).
  unfold file_location. cbv zeta.
  rewrite fold_truediv_no_slash by (intros; apply has_slash_slice; assumption).
  rewrite (truediv_no_slash _ content_id) by assumption.
  pose proof (is_name_length_dir (ContentHasher.hash_length self)) as Hl.
  rewrite (truediv_no_slash _ ("l" +:+ str _)) by (apply is_name_has_slash, Hl).
  rewrite (is_name_component _ Hl). simpl.
  destruct (is_component content_id) eqn:Hc.
  - eexists. rewrite !app_assoc. reflexivity.
  - fold (shards (ContentHasher.hash_length self) content_id).
    rewrite shards_not_component by exact Hc.
    exists (pre ++ parse_parts (ContentHasher.hash_algorithm self)).
    rewrite !app_nil_r, app_assoc. reflexivity.
Qed.

Lemma is_hex_not_length_dir d n : is_hex d = true -> d <> "l" +:+ str n.
Proof. intros Hh ->. discriminate Hh. Qed.

(** *** Saves and loads keep the entries of the cache readable *)

(** What a save that returned wrote reads back. *)
Lemma save_Ok_read lib content d w w' :
  save lib content w = (Ok d, w') ->
  read_bytes (entry_path (hasher w') d) (disk w') = (Ok content, disk w').
Proof.
  rewrite save_eq, hash_eq.
  destruct (hexdigest lib _ content) as [h|]; [|discriminate]. cbv zeta.
  destruct (mkdir_parents _ (disk w)) as [[[]|e] fs]; [|discriminate].
  destruct (write_bytes _ content fs) as [[[]|e] fs'] eqn:Hw; [|discriminate].
  intros [= <- <-]. simpl. exact (read_after_write _ _ _ _ Hw).
Qed.

Section Backed_general.
Variable lib : PyLib.

(** The entry of another identifier reads the same after a save that
    returned. *)
Lemma read_after_other_save content d w w' content_id v :
  save lib content w = (Ok d, w') ->
  is_hex d = true -> d <> "" ->
  has_slash content_id = false ->
  content_id <> d ->
  read_bytes (entry_path (hasher w) content_id) (disk w) = (Ok v, disk w) ->
  read_bytes (entry_path (hasher w') content_id) (disk w') = (Ok v, disk w').
Proof.
  intros Hsave Hhex Hne Hs Hid Hread.
  rewrite save_eq, hash_eq in Hsave.
  destruct (hexdigest lib _ content) as [h|]; [|discriminate]. cbv zeta in Hsave.
  pose proof (mkdir_parents_only_new_dirs
                (parent (entry_path (hasher w)
                           (slice h 0 (ContentHasher.hash_length (hasher w))))) (disk w)) as Hmk.
  destruct (mkdir_parents _ (disk w)) as [[[]|e] fs1]; [|discriminate]. simpl in Hmk.
  destruct (write_bytes _ content fs1) as [[[]|e] fs'] eqn:Hw; [|discriminate].
  injection Hsave as Hd <-. simpl.
  change (entry_path (cache_put _ content (hasher w)) content_id)
    with (entry_path (hasher w) content_id).
  rewrite Hd in Hw.
  apply write_bytes_Ok in Hw as (name' & rdir' & d0' & Hp' & _ & _ & Hnd & ->).
  apply read_bytes_Ok_inv in Hread as (_ & name & init & d0 & Hp & Hdd & Hwalk & Hf).
  assert (Hname' : name' = d).
  { destruct (entry_path_last (hasher w) d (is_hex_has_slash d Hhex)) as (pre & Hpre).
    rewrite is_hex_component in Hpre by exact Hhex.
    destruct (String.eqb_spec d ""); [contradiction|]. simpl in Hpre.
    rewrite Hpre, rev_unit in Hp'. congruence. }
  assert (Hname : name <> d).
  { destruct (entry_path_last (hasher w) content_id Hs) as (pre & Hpre).
    rewrite Hpre in Hp. apply app_inj_tail in Hp as [_ Hp]. subst name.
    destruct (is_component content_id); [exact Hid|].
    intros Heq. symmetry in Heq. revert Heq. apply is_hex_not_length_dir, Hhex. }
  assert (Hkey : d0 ++ [name] <> d0' ++ [name']).
  { intros Hk. apply app_inj_tail in Hk as [_ Hk]. congruence. }
  assert (Hdirs : dirs_preserved (disk w) (<[d0' ++ [name'] := File content]> fs1)).
  { intros k Hk. destruct (Hmk k) as [E | [N _]]; [|congruence].
    rewrite lookup_insert_ne; [congruence|]. intros <-. congruence. }
  apply (read_bytes_Ok_intro _ _ name init d0); try assumption.
  - eapply walk_dirs_preserved; eassumption.
  - rewrite lookup_insert_ne by congruence.
    destruct (Hmk (d0 ++ [name])) as [E | [N _]]; congruence.
Qed.

Lemma save_backed content d w w' :
  save lib content w = (Ok d, w') ->
  is_hex d = true -> d <> "" ->
  cache_backed w /\ cache_ids_plain w ->
  cache_backed w' /\ cache_ids_plain w'.
Proof.
  intros Hsave Hhex Hne [Hb Hp].
  assert (Hin : forall content_id v,
             (content_id, v) ∈ LRU.cache (ContentHasher.cache (hasher w')) ->
             (content_id, v) = (d, content)
             \/ ((content_id, v) ∈ LRU.cache (ContentHasher.cache (hasher w))
                 /\ content_id <> d)).
  { intros content_id v. pose proof Hsave as Hs. rewrite save_eq, hash_eq in Hs.
    destruct (hexdigest lib _ content) as [h|]; [|discriminate]. cbv zeta in Hs.
    destruct (mkdir_parents _ (disk w)) as [[[]|e] fs1]; [|discriminate].
    destruct (write_bytes _ content fs1) as [[[]|e] fs']; [|discriminate].
    injection Hs as Hd <-. simpl. rewrite Hd. intros Hin.
    apply elem_of_evicted, elem_of_inserted in Hin. exact Hin. }
  split.
  - intros content_id v Hv. destruct (Hin _ _ Hv) as [[= -> ->] | [Hold Hid]].
    + exact (save_Ok_read lib _ _ _ _ Hsave).
    + eapply read_after_other_save; eauto.
  - intros content_id v Hv. destruct (Hin _ _ Hv) as [[= -> ->] | [Hold Hid]].
    + apply is_hex_has_slash, Hhex.
    + eapply Hp, Hold.
Qed.

Lemma load_backed content_id w :
  has_slash content_id = false ->
  cache_backed w /\ cache_ids_plain w ->
  cache_backed (load content_id w).2 /\ cache_ids_plain (load content_id w).2.
Proof.
  intros Hs [Hb Hp]. rewrite load_eq.
  destruct (OrderedDict.lookup content_id _) as [v|] eqn:Hl.
  - simpl. split; intros id' v' Hin; simpl in Hin;
      apply elem_of_inserted in Hin as [[= -> ->] | [Hin _]]; eauto.
    apply (Hb content_id v), lookup_Some_elem, Hl.
  - destruct (read_bytes _ (disk w)) as [[content|e] fs] eqn:Hread.
    + apply read_bytes_Ok_inv in Hread as Hfs. destruct Hfs as [-> _].
      simpl. split; intros id' v' Hin; simpl in Hin;
        apply elem_of_evicted, elem_of_inserted in Hin as [[= -> ->] | [Hin _]]; eauto.
    + destruct e; simpl; split; assumption.
Qed.

Lemma serve_all_backed rs w :
  (forall content h,
     hexdigest lib (ContentHasher.hash_algorithm (hasher w)) content = Some h ->
     is_hex (slice h 0 (ContentHasher.hash_length (hasher w))) = true
     /\ slice h 0 (ContentHasher.hash_length (hasher w)) <> "") ->
  saves_return lib rs w ->
  cache_backed w /\ cache_ids_plain w ->
  cache_backed (serve_all lib rs w) /\ cache_ids_plain (serve_all lib rs w).
Proof.
  unfold serve_all. revert w. induction rs as [|r rs IH]; intros w Hshape Hret Hinv;
    [exact Hinv|].
  simpl. destruct Hret as [Hr Hrest].
  assert (Hstep : (cache_backed (serve lib w r) /\ cache_ids_plain (serve lib w r))
                  /\ ContentHasher.hash_algorithm (hasher (serve lib w r))
                     = ContentHasher.hash_algorithm (hasher w)
                  /\ ContentHasher.hash_length (hasher (serve lib w r))
                     = ContentHasher.hash_length (hasher w)).
  { destruct r as [content|url_path]; simpl.
    - destruct Hr as [d Hd].
      destruct (save lib content w) as [res w'] eqn:Hsave. simpl in Hd. subst res. simpl.
      pose proof Hsave as Hs. rewrite save_eq, hash_eq in Hs.
      destruct (hexdigest lib _ content) as [h|] eqn:Hh; [|discriminate]. cbv zeta in Hs.
      destruct (Hshape _ _ Hh) as [Hhex Hne].
      destruct (mkdir_parents _ (disk w)) as [[[]|e] fs1]; [|discriminate].
      destruct (write_bytes _ content fs1) as [[[]|e] fs']; [|discriminate].
      injection Hs as Hd Hw'. rewrite Hd in Hhex, Hne.
      split; [eapply save_backed; eauto|]. subst w'. split; reflexivity.
    - rewrite do_GET_state. split; [apply load_backed; [apply last_segment_no_slash | exact Hinv]|].
      rewrite load_eq. destruct (OrderedDict.lookup _ _) as [v|]; [split; reflexivity|].
      destruct (read_bytes _ (disk w)) as [[c|[]] fs]; split; reflexivity. }
  destruct Hstep as (Hinv' & Ha & Hl).
  apply IH; [|exact Hrest | exact Hinv'].
  rewrite Ha, Hl. exact Hshape.
Qed.
End Backed_general.

(** C8 as stated also fails when a save raises: line 58 puts the entry in
    the cache before lines 62-63 create the directories and write the file.
    Here the state directory walks through the place of the entry and back,
    so creating the directories makes the entry's own path a directory and
    the write raises IsADirectoryError; the cache then holds an entry that
    has no file. *)
Lemma cache_not_backed_after_failed_save :
  ~ disk_authoritative Demo.lib
      {| ContentHasher.hash_algorithm := "sha256";
         ContentHasher.hash_length := 5;
         ContentHasher.state_dir := path_of "sha256/l5/68/74/68747/../../../../..";
         ContentHasher.cache := LRU.__init__ 100 |}.
Proof.
  intros Hclaim.
  pose (a := String.list_byte_of_string "https://example.com/x").
  specialize (Hclaim [Save a] "68747" a).
  assert (Hin : ("68747", a) ∈ LRU.cache (ContentHasher.cache (hasher
            (serve_all Demo.lib [Save a]
               {| hasher := {| ContentHasher.hash_algorithm := "sha256";
                               ContentHasher.hash_length := 5;
                               ContentHasher.state_dir :=
                                 path_of "sha256/l5/68/74/68747/../../../../..";
                               ContentHasher.cache := LRU.__init__ 100 |};
                  disk := ∅ |})))).
  { vm_compute. apply list_elem_of_here. }
  apply Hclaim in Hin. apply (f_equal fst) in Hin. vm_compute in Hin. discriminate Hin.
Qed.


Lemma is_hex_app s t : is_hex (s +:+ t) = is_hex s && is_hex t.
Proof.
  induction s as [|c s IH]; simpl; [reflexivity|].
  rewrite IH. apply andb_assoc.
Qed.

Lemma length_app_string s t :
  String.length (s +:+ t) = (String.length s + String.length t)%nat.
Proof. induction s as [|c s IH]; simpl; [reflexivity | rewrite IH; reflexivity]. Qed.

Lemma Demo_digest_shape content h :
  hexdigest Demo.lib "sha256" content = Some h ->
  is_hex (slice h 0 5) = true /\ String.length (slice h 0 5) = 5%nat.
Proof.
  pose (x := Demo.hex_of_bytes content +:+ Demo.zeros 64).
  change (hexdigest Demo.lib "sha256" content) with (Some (substring 0 64 x)).
  intros Hh. assert (Hh' : h = substring 0 64 x) by congruence. clear Hh. subst h.
  assert (Hx : is_hex x = true).
  { subst x. rewrite is_hex_app. apply andb_true_iff. split; [|reflexivity].
    induction content as [|y content IH]; [reflexivity|].
    simpl. rewrite IH. destruct y; reflexivity. }
  assert (Hlen : String.length (substring 0 64 x) = 64%nat).
  { apply length_substring. subst x. rewrite length_app_string. simpl. lia. }
  split; [apply is_hex_slice, is_hex_substring, Hx|].
  unfold slice, clamp_index, len. rewrite Hlen. simpl.
  apply length_substring. rewrite Hlen. lia.
Qed.

Lemma Demo_digest_nonempty content h :
  hexdigest Demo.lib "sha256" content = Some h ->
  is_hex (slice h 0 5) = true /\ slice h 0 5 <> "".
Proof.
  intros Hh. destruct (Demo_digest_shape content h Hh) as [Hhex Hlen].
  split; [exact Hhex|]. intros E. rewrite E in Hlen. discriminate Hlen.
Qed.


(* ===================================================================== *)
(** ** Requests for identifiers that were never written *)
(* ===================================================================== *)

(** An identifier that is not cached and whose path does not exist is
    answered 404, and nothing changes. *)
Lemma do_GET_not_found (lib : PyLib) (url_path : string) (w : world) :
  OrderedDict.lookup (last_segment url_path)
    (LRU.cache (ContentHasher.cache (hasher w))) = None ->
  read_bytes (entry_path (hasher w) (last_segment url_path)) (disk w)
  = (Raise FileNotFoundError, disk w) ->
  do_GET lib url_path w = (Ok {| status := 404; headers := []; body := [] |}, w).
Proof.
  intros Hnc Hread. rewrite do_GET_eq, load_eq, Hnc, Hread. reflexivity.
Qed.

(** C9.  In a store whose algorithm name and state directory components are
    plain names and whose identifiers are strings of n >= 1 hexadecimal
    digits, started with an empty cache over an empty disk, take any state reached by a sequence of requests that
    contains a save of a content the digest provider accepts.  The identifier
    of the request path [/] is the empty string; it was never written: it is
    not in the cache, and its path is not a file but the directory of all
    entries.  Reading it raises IsADirectoryError, which [do_GET] does not
    catch: the handler raises and no 404 is sent. *)
Theorem GET_root_raises_after_save (lib : PyLib) (algorithm : string) (length : Z)
    (dir : Path) (cache_size : Z) (n : nat) (rs rs' : list request)
    (content : bytes) (h : string) :
  is_plain algorithm = true ->
  Forall (fun s => is_plain s = true) (parts dir) ->
  (1 <= n)%nat ->
  (forall content h,
     hexdigest lib algorithm content = Some h ->
     is_hex (slice h 0 length) = true /\ String.length (slice h 0 length) = n) ->
  hexdigest lib algorithm content = Some h ->
  let w := serve_all lib (rs ++ Save content :: rs')
             {| hasher := {| ContentHasher.hash_algorithm := algorithm;
                             ContentHasher.hash_length := length;
                             ContentHasher.state_dir := dir;
                             ContentHasher.cache := LRU.__init__ cache_size |};
                disk := ∅ |} in
  last_segment "/" = ""
  /\ OrderedDict.lookup "" (LRU.cache (ContentHasher.cache (hasher w))) = None
  /\ read_bytes (entry_path (hasher w) "") (disk w) = (Raise IsADirectoryError, disk w)
  /\ do_GET lib "/" w = (Raise IsADirectoryError, w).
Proof.
  intros Halg Hdir Hn Hshape Hh w.
  pose proof (initial_store_inv algorithm length dir n cache_size) as H0.
  pose proof (serve_all_store_inv lib algorithm length dir n Halg Hdir Hn Hshape) as Hall.
  assert (Hinv : store_inv algorithm length dir n w) by (apply Hall, H0).
  assert (Hne : disk w <> ∅).
  { subst w. unfold serve_all. rewrite fold_left_app. simpl.
    apply (serve_all_disk_nonempty lib rs').
    eapply save_disk_nonempty; try eassumption. apply Hall, H0. }
  split; [reflexivity|]. split; [|split].
  - eapply empty_id_not_cached; eassumption.
  - eapply read_empty_id_raises; eassumption.
  - eapply do_GET_root_raises; eassumption.
Qed.

Lemma GET_root_raises_after_save_witness :
  let content := String.list_byte_of_string "https://example.com/x" in
  let w := serve_all Demo.lib [Get "/"; Save content; Get "/68747"] (Demo.world0 100) in
  do_GET Demo.lib "/" w = (Raise IsADirectoryError, w).
Proof.
  intros content w.
  refine (proj2 (proj2 (proj2 (GET_root_raises_after_save Demo.lib "sha256" 5
            (path_of "goto_state") 100 5 [Get "/"] [Get "/68747"] content
            (String.substring 0 64 (Demo.hex_of_bytes content +:+ Demo.zeros 64))
            eq_refl _ _ Demo_digest_shape eq_refl)))).
  - repeat constructor.
  - lia.
Defined.

(** The same on the default configuration: before any save the request path
    [/] is answered 404; after one save it raises. *)
Lemma GET_root_before_and_after_save :
  let content := String.list_byte_of_string "https://example.com/x" in
  let w1 := (save Demo.lib content (Demo.world0 100)).2 in
  save Demo.lib content (Demo.world0 100) = (Ok "68747", w1)
  /\ path_str (entry_path (hasher w1) "") = "goto_state/sha256/l5"
  /\ disk w1 !! ["goto_state"; "sha256"; "l5"] = Some Dir
  /\ do_GET Demo.lib "/" w1 = (Raise IsADirectoryError, w1)
  /\ do_GET Demo.lib "/" (Demo.world0 100)
     = (Ok {| status := 404; headers := []; body := [] |}, Demo.world0 100).
Proof. vm_compute. repeat split. Qed.

(* ===================================================================== *)
(** * Further properties *)
(* ===================================================================== *)

(** ** The bounded cache, continued *)

Section LRU_more.
Context {K V : Type} `{EqDecision K}.
Implicit Types (d r : OrderedDict.t K V) (k key : K) (v value : V).
Implicit Types (self : LRU.t K V).

Lemma contains_lookup key d :
  OrderedDict.contains key d = true <-> exists v, OrderedDict.lookup key d = Some v.
Proof.
  unfold OrderedDict.contains. rewrite bool_decide_eq_true.
  destruct (OrderedDict.lookup key d) as [v|] eqn:Hl.
  - split; [eauto|]. intros _. apply dec_stable. intros Hn.
    apply lookup_None in Hn. congruence.
  - apply lookup_None in Hl. split; [contradiction | intros [v Hv]; discriminate].
Qed.

(** A dictionary that ends with the entry of [key] still binds [key] after
    the insertion of another key, when the maximum is at least three. *)
Lemma lookup_after_other_insert max_size r key v key' value' :
  3 <= max_size ->
  OrderedDict.lookup key r = None ->
  key' <> key ->
  OrderedDict.lookup key (evicted max_size (inserted key' value' (r ++ [(key, v)])))
  = Some v.
Proof.
  intros HM Hr Hne. unfold inserted, OrderedDict.remove.
  rewrite filter_app, filter_cons_True by (simpl; congruence). rewrite filter_nil.
  fold (OrderedDict.remove key' r).
  assert (Hr' : OrderedDict.lookup key (OrderedDict.remove key' r) = None).
  { rewrite lookup_remove_ne by exact Hne. exact Hr. }
  assert (Hfind : forall r0 : OrderedDict.t K V,
             OrderedDict.lookup key r0 = None ->
             OrderedDict.lookup key ((r0 ++ [(key, v)]) ++ [(key', value')]) = Some v).
  { intros r0 H0. rewrite !lookup_snoc, H0.
    destruct (decide (key = key)); [reflexivity | congruence]. }
  unfold evicted. destruct (_ >=? max_size) eqn:E; [|apply Hfind, Hr'].
  destruct (OrderedDict.remove key' r) as [|[k0 v0] r0].
  - apply Z.geb_le in E. simpl in E. lia.
  - simpl in Hr'. destruct (decide (k0 = key)); [discriminate|].
    simpl. apply Hfind, Hr'.
Qed.

(** With a maximum of at least two, the entry just written is kept, last. *)
Lemma evicted_inserted_ends max_size key value d :
  2 <= max_size ->
  exists r, evicted max_size (inserted key value d) = r ++ [(key, value)]
            /\ OrderedDict.lookup key r = None.
Proof.
  intros HM. unfold evicted, inserted.
  pose proof (lookup_remove_eq (V := V) key d) as Hrm.
  destruct (_ >=? max_size) eqn:E; [|eauto].
  destruct (OrderedDict.remove key d) as [|[k0 v0] r0].
  - apply Z.geb_le in E. simpl in E. lia.
  - simpl in Hrm. destruct (decide (k0 = key)); [discriminate|].
    exists r0. split; [reflexivity | exact Hrm].
Qed.

Lemma reachable_small_empty max_size self :
  max_size <= 1 -> reachable max_size self -> self = LRU.__init__ max_size.
Proof.
  intros HM. induction 1 as [|self key value _ IH|self key _ IH]; [reflexivity| |].
  - rewrite IH, LRU_setitem_eq. simpl. unfold evicted, inserted. simpl.
    assert (E : (Z.of_nat 1 >=? max_size) = true) by (apply Z.geb_le; lia).
    rewrite E. reflexivity.
  - rewrite IH. reflexivity.
Qed.
Lemma reachable_puts max_size (kvs : list (K * V)) self :
  reachable max_size self -> reachable max_size (puts kvs self).2.
Proof.
  revert self. induction kvs as [|[k v] kvs IH]; intros self Hr; [exact Hr|].
  simpl. unfold bind. rewrite LRU_setitem_eq.
  apply IH. pose proof (reachable_setitem max_size self k v Hr) as H1.
  rewrite LRU_setitem_eq in H1. exact H1.
Qed.
End LRU_more.

(** X1.  [__setitem__] never raises, whatever the cache holds and whatever
    its maximum: the pop of line 35 always finds the entry line 32 put
    there.  The maximum is left as it was and the cache grows by one entry
    at most. *)
Theorem setitem_never_raises {K V : Type} `{EqDecision K}
    (self : LRU.t K V) (key : K) (value : V) :
  exists self',
    LRU.__setitem__ key value self = (Ok tt, self')
    /\ LRU.max_size self' = LRU.max_size self
    /\ size self' <= size self + 1.
Proof.
  eexists. split; [apply LRU_setitem_eq|]. split; [reflexivity|].
  unfold size. simpl. unfold evicted.
  pose proof (length_inserted key value (LRU.cache self)) as Hlen.
  pose proof (length_remove_le key (LRU.cache self)) as Hle.
  destruct (_ >=? LRU.max_size self).
  - destruct (inserted key value (LRU.cache self)); simpl in *; lia.
  - lia.
Qed.

(** X2.  [__getitem__] returns a value exactly when [__contains__] answers
    true; on a key that is not contained it raises KeyError and leaves the
    cache as it was. *)
Theorem getitem_iff_contains {K V : Type} `{EqDecision K} (self : LRU.t K V) (key : K) :
  ((exists v self', LRU.__getitem__ key self = (Ok v, self'))
   <-> LRU.__contains__ key self = (Ok true, self))
  /\ (LRU.__contains__ key self = (Ok false, self)
      <-> LRU.__getitem__ key self = (Raise KeyError, self)).
Proof.
  rewrite LRU_getitem_eq. unfold LRU.__contains__, bind, get_state, ret.
  pose proof (contains_lookup key (LRU.cache self)) as Hc.
  destruct (OrderedDict.lookup key (LRU.cache self)) as [v|] eqn:Hl.
  - assert (Ht : OrderedDict.contains key (LRU.cache self) = true) by (apply Hc; eauto).
    rewrite Ht. split; split; try discriminate; eauto.
  - destruct (OrderedDict.contains key (LRU.cache self)) eqn:E.
    + destruct (proj1 Hc eq_refl) as [v Hv]. discriminate Hv.
    + split; split; try discriminate; try reflexivity.
      intros (v & self' & Hg). discriminate Hg.
Qed.

(** X3.  A read that succeeds changes no binding: every key is bound to the
    same value as before; the key read becomes the last (most recently used)
    entry; the maximum is unchanged and the cache does not grow. *)
Theorem getitem_keeps_bindings {K V : Type} `{EqDecision K}
    (self self' : LRU.t K V) (key : K) (v : V) :
  LRU.__getitem__ key self = (Ok v, self') ->
  OrderedDict.lookup key (LRU.cache self) = Some v
  /\ (forall k, OrderedDict.lookup k (LRU.cache self') = OrderedDict.lookup k (LRU.cache self))
  /\ last (LRU.cache self') = Some (key, v)
  /\ LRU.max_size self' = LRU.max_size self
  /\ size self' <= size self.
Proof.
  rewrite LRU_getitem_eq.
  destruct (OrderedDict.lookup key (LRU.cache self)) as [v0|] eqn:Hl; [|discriminate].
  intros [= <- <-]. simpl. split; [reflexivity|]. split; [|split; [|split]].
  - intros k. unfold inserted. rewrite lookup_snoc.
    destruct (decide (key = k)) as [<-|Hne].
    + rewrite lookup_remove_eq. congruence.
    + rewrite lookup_remove_ne by exact Hne.
      destruct (OrderedDict.lookup k (LRU.cache self)); reflexivity.
  - unfold inserted. apply last_snoc.
  - reflexivity.
  - unfold size. simpl. rewrite length_inserted.
    pose proof (length_remove_lt _ _ _ Hl). lia.
Qed.

Lemma getitem_keeps_bindings_witness :
  let self : LRU.t string bytes :=
    {| LRU.max_size := 3; LRU.cache := [("A", []); ("B", [])] |} in
  OrderedDict.lookup "B" (LRU.cache (LRU.__getitem__ "A" self).2)
  = OrderedDict.lookup "B" (LRU.cache self)
  /\ last (LRU.cache (LRU.__getitem__ "A" self).2) = Some ("A", []).
Proof.
  intros self.
  pose proof (getitem_keeps_bindings self (LRU.__getitem__ "A" self).2 "A" [] eq_refl)
    as (_ & Hk & Hl & _).
  exact (conj (Hk "B") Hl).
Defined.

(** X4.  With a maximum of at least two, what is written can be read back:
    after [cache[key] = value] the key is contained and [cache[key]] returns
    the value, whatever the cache held. *)
Theorem setitem_then_getitem {K V : Type} `{EqDecision K}
    (self : LRU.t K V) (key : K) (value : V) :
  2 <= LRU.max_size self ->
  exists self' self'',
    LRU.__setitem__ key value self = (Ok tt, self')
    /\ LRU.__contains__ key self' = (Ok true, self')
    /\ LRU.__getitem__ key self' = (Ok value, self'').
Proof.
  intros HM. rewrite LRU_setitem_eq.
  destruct (evicted_inserted_ends (LRU.max_size self) key value (LRU.cache self) HM)
    as (r & Hr & Hnone).
  assert (Hl : OrderedDict.lookup key
                 (evicted (LRU.max_size self) (inserted key value (LRU.cache self)))
               = Some value).
  { rewrite Hr, lookup_snoc, Hnone. destruct (decide (key = key)); congruence. }
  eexists. eexists. split; [reflexivity|]. split.
  - unfold LRU.__contains__, bind, get_state, ret. simpl.
    rewrite (proj2 (contains_lookup key _)) by eauto. reflexivity.
  - rewrite LRU_getitem_eq. simpl. rewrite Hl. reflexivity.
Qed.

Lemma setitem_then_getitem_witness :
  exists self' self'',
    LRU.__setitem__ "A" [] (LRU.__init__ 2 : LRU.t string bytes) = (Ok tt, self')
    /\ LRU.__contains__ "A" self' = (Ok true, self')
    /\ LRU.__getitem__ "A" self' = (Ok [], self'').
Proof. apply (setitem_then_getitem (LRU.__init__ 2) "A" []). simpl. lia. Defined.

(** X5.  Between two calls a cache holds fewer entries than its maximum:
    at most [max_size - 1], and none at all when the maximum is below two. *)
Theorem reachable_size_bound {K V : Type} `{EqDecision K}
    (max_size : Z) (self : LRU.t K V) :
  reachable max_size self ->
  LRU.max_size self = max_size /\ 0 <= size self <= Z.max (max_size - 1) 0.
Proof.
  intros Hr. destruct (reachable_inv _ _ Hr) as [Hm Hs]. split; [exact Hm|].
  unfold size in *. split; [lia|].
  destruct (Z_le_gt_dec max_size 1) as [Hle|Hgt].
  - rewrite (reachable_small_empty max_size self Hle Hr). simpl. lia.
  - specialize (Hs ltac:(lia)). lia.
Qed.

Lemma reachable_size_bound_witness :
  size (puts [("A", [] : bytes); ("B", []); ("C", []); ("D", [])] (LRU.__init__ 3)).2 <= 2.
Proof.
  refine (proj2 (proj2 (reachable_size_bound 3 _ _))).
  apply reachable_puts, reachable_init.
Defined.

(** X6.  With a maximum of at least three, the entry that was just read or
    just written survives the next insertion of another key, with its
    value: the insertion evicts an older entry or none. *)
Theorem recently_used_survives {K V : Type} `{EqDecision K}
    (self self1 : LRU.t K V) (key key' : K) (v value' : V) :
  3 <= LRU.max_size self ->
  LRU.__getitem__ key self = (Ok v, self1)
  \/ LRU.__setitem__ key v self = (Ok tt, self1) ->
  key' <> key ->
  exists self2,
    LRU.__setitem__ key' value' self1 = (Ok tt, self2)
    /\ OrderedDict.lookup key (LRU.cache self2) = Some v.
Proof.
  intros HM Huse Hne. eexists. split; [apply LRU_setitem_eq|]. simpl.
  assert (Hends : LRU.max_size self1 = LRU.max_size self
                  /\ exists r, LRU.cache self1 = r ++ [(key, v)]
                               /\ OrderedDict.lookup key r = None).
  { destruct Huse as [Hg|Hs].
    - rewrite LRU_getitem_eq in Hg.
      destruct (OrderedDict.lookup key (LRU.cache self)) as [v0|]; [|discriminate].
      injection Hg as <- <-. simpl. split; [reflexivity|].
      exists (OrderedDict.remove key (LRU.cache self)).
      split; [reflexivity | apply lookup_remove_eq].
    - rewrite LRU_setitem_eq in Hs. injection Hs as <-. simpl. split; [reflexivity|].
      apply evicted_inserted_ends. lia. }
  destruct Hends as (Hmax & r & Hcache & Hnone).
  rewrite Hcache, Hmax. apply lookup_after_other_insert; assumption.
Qed.

Lemma recently_used_survives_witness :
  let self : LRU.t string bytes :=
    {| LRU.max_size := 3; LRU.cache := [("A", []); ("B", [])] |} in
  exists self2,
    LRU.__setitem__ "C" [] (LRU.__getitem__ "A" self).2 = (Ok tt, self2)
    /\ OrderedDict.lookup "A" (LRU.cache self2) = Some [].
Proof.
  intros self.
  apply (recently_used_survives self (LRU.__getitem__ "A" self).2 "A" "C" [] []).
  - simpl. lia.
  - left. reflexivity.
  - discriminate.
Defined.

(** X7.  Overwriting a key that is already cached evicts nothing: the call
    returns the cache with that entry moved last under its new value, and
    every other key keeps its value. *)
Theorem overwrite_evicts_nothing {K V : Type} `{EqDecision K}
    (max_size : Z) (self : LRU.t K V) (key : K) (old value : V) :
  reachable max_size self ->
  OrderedDict.lookup key (LRU.cache self) = Some old ->
  LRU.__setitem__ key value self
  = (Ok tt, LRU.with_cache
              (filter (fun kv => kv.1 <> key) (LRU.cache self) ++ [(key, value)]) self)
  /\ forall k, k <> key ->
       OrderedDict.lookup k (LRU.cache (LRU.__setitem__ key value self).2)
       = OrderedDict.lookup k (LRU.cache self).
Proof.
  intros Hr Hold. destruct (reachable_inv _ _ Hr) as [Hm Hs].
  assert (Hset : LRU.__setitem__ key value self
                 = (Ok tt, LRU.with_cache (inserted key value (LRU.cache self)) self)).
  { rewrite LRU_setitem_eq. unfold evicted. rewrite length_inserted.
    pose proof (length_remove_lt _ _ _ Hold) as Hlt.
    destruct (_ >=? LRU.max_size self) eqn:E; [|reflexivity].
    apply Z.geb_le in E. rewrite Hm in E.
    destruct (Z_le_gt_dec max_size 1) as [Hle|Hgt].
    - rewrite (reachable_small_empty max_size self Hle Hr) in Hold. discriminate Hold.
    - specialize (Hs ltac:(lia)). unfold size in Hs. lia. }
  split; [exact Hset|]. intros k Hne. rewrite Hset. simpl.
  unfold inserted. rewrite lookup_snoc, lookup_remove_ne by congruence.
  destruct (OrderedDict.lookup k (LRU.cache self)); [reflexivity|].
  destruct (decide (key = k)); [congruence | reflexivity].
Qed.

Lemma overwrite_evicts_nothing_witness :
  let self : LRU.t string bytes := (puts [("A", []); ("B", [])] (LRU.__init__ 3)).2 in
  LRU.__setitem__ "A" [Byte.x01] self
  = (Ok tt, {| LRU.max_size := 3; LRU.cache := [("B", []); ("A", [Byte.x01])] |}).
Proof.
  intros self.
  refine (proj1 (overwrite_evicts_nothing 3 self "A" [] [Byte.x01] _ eq_refl)).
  apply reachable_puts, reachable_init.
Defined.

(** ** Path sharding, continued *)

Lemma substring_add a b c s :
  substring a (b + c) s = substring a b s +:+ substring (a + b) c s.
Proof.
  revert a b. induction s as [|x s IH]; intros a b.
  - destruct a, b, c; reflexivity.
  - destruct a as [|a].
    + destruct b as [|b]; simpl.
      * destruct c; reflexivity.
      * rewrite (IH 0%nat b). reflexivity.
    + simpl. apply IH.
Qed.

Lemma substring_all s : substring 0 (String.length s) s = s.
Proof. induction s as [|x s IH]; simpl; [reflexivity | rewrite IH; reflexivity]. Qed.

Lemma substring_beyond a b s :
  (String.length s <= a)%nat -> substring a b s = "".
Proof.
  revert a b. induction s as [|x s IH]; intros a b Hle.
  - destruct a, b; reflexivity.
  - destruct a as [|a]; simpl in *; [lia | apply IH; lia].
Qed.

(** Consecutive two-character slices spell a slice. *)
Lemma joined_slices a n s :
  joined (map (fun k => substring (a + 2 * k) 2 s) (seq 0 n)) = substring a (2 * n) s.
Proof.
  revert a. induction n as [|n IH]; intros a.
  - simpl. rewrite substring_zero. reflexivity.
  - simpl seq. rewrite map_cons. simpl joined.
    rewrite <- seq_shift, map_map.
    replace (2 * S n)%nat with (2 + 2 * n)%nat by lia.
    rewrite substring_add. f_equal; [f_equal; lia|].
    rewrite <- (IH (a + 2)%nat). f_equal. apply map_ext. intros k. f_equal. lia.
Qed.

(** The indices of the loop of [file_location]. *)
Lemma range2_seq stop :
  range 0 stop 2 = map (fun k => 2 * Z.of_nat k) (seq 0 (Z.to_nat ((stop + 1) / 2))).
Proof.
  unfold range. replace (stop - 0 + 2 - 1) with (stop + 1) by lia. reflexivity.
Qed.

Lemma filter_map_all {A B} (P : B -> Prop) `{forall x, Decision (P x)}
    (f g : A -> B) (l : list A) :
  (forall x, x ∈ l -> f x = g x /\ P (g x)) ->
  filter P (map f l) = map g l.
Proof.
  induction l as [|x l IH]; intros Hall; [reflexivity|].
  destruct (Hall x ltac:(left)) as [Hfg HP].
  rewrite !map_cons, Hfg, filter_cons_True by exact HP.
  f_equal. apply IH. intros y Hy. apply Hall. right. exact Hy.
Qed.

(** The shards of a digest of at least [length] characters. *)
Lemma shards_full length d :
  length <= len d ->
  shards length d
  = map (fun k => substring (2 * k) 2 d) (seq 0 (Z.to_nat ((length - 1) / 2))).
Proof.
  intros Hlen. unfold shards. rewrite range2_seq, map_map.
  replace (length - 2 + 1) with (length - 1) by lia.
  apply filter_map_all. intros k Hk. apply elem_of_seq in Hk.
  assert (Hb : 2 * Z.of_nat k + 2 <= len d).
  { assert (Z.of_nat k + 1 <= (length - 1) / 2) by lia.
    pose proof (Z.mul_div_le (length - 1) 2 ltac:(lia)). lia. }
  rewrite slice_inside by lia.
  replace (Z.to_nat (2 * Z.of_nat k)) with (2 * k)%nat by lia.
  split; [reflexivity|]. apply is_component_length2, length_substring.
  unfold len in Hb. lia.
Qed.

(** X8.  Two different identifiers that are each one path component get
    different paths: no two identifiers share a file. *)
Theorem file_location_injective (algorithm : string) (length : Z) (d d' : string) :
  is_name algorithm = true ->
  is_name d = true ->
  is_name d' = true ->
  d <> d' ->
  file_location algorithm length d <> file_location algorithm length d'.
Proof.
  intros Halg Hd Hd' Hne.
  rewrite !file_location_parts by (assumption || apply is_name_has_slash; assumption).
  rewrite (is_name_component d Hd), (is_name_component d' Hd').
  intros [= Heq]. apply app_inj_tail in Heq as [_ Heq]. contradiction.
Qed.

Lemma file_location_injective_witness :
  "abcde" <> "abcdf"
  /\ file_location "sha256" 5 "abcde" <> file_location "sha256" 5 "abcdf".
Proof.
  assert (H : "abcde" <> "abcdf") by discriminate.
  exact (conj H (file_location_injective "sha256" 5 "abcde" "abcdf"
                   eq_refl eq_refl eq_refl H)).
Defined.

(** X9.  For the empty identifier and for the identifier [.], which pathlib
    drops as components, the path has no shard and no file name: it is the
    directory [<alg>/l<L>] itself, for every L. *)
Theorem file_location_of_dropped_identifier (algorithm : string) (length : Z) (d : string) :
  is_name algorithm = true ->
  d = "" \/ d = "." ->
  file_location algorithm length d
  = {| anchor := ""; parts := [algorithm; "l" +:+ str length] |}.
Proof.
  intros Halg Hd.
  assert (Hc : is_component d = false) by (destruct Hd as [-> | ->]; reflexivity).
  assert (Hs : has_slash d = false) by (destruct Hd as [-> | ->]; reflexivity).
  rewrite file_location_parts by assumption.
  fold (shards length d). rewrite (shards_not_component length d Hc), Hc. reflexivity.
Qed.

Lemma file_location_of_dropped_identifier_witness :
  path_str (file_location "sha256" 5 ".") = "sha256/l5".
Proof.
  rewrite (file_location_of_dropped_identifier "sha256" 5 "." eq_refl (or_intror eq_refl)).
  reflexivity.
Defined.

(** X10.  For a digest of at least L characters the path has
    [(L - 1) / 2] shard components (none for L <= 2), whatever the digest,
    so all entries lie at the same depth; and the shards, one after the
    other, spell the first [2 * ((L - 1) / 2)] characters of the digest. *)
Theorem file_location_shards_spell_prefix (algorithm : string) (length : Z) (d : string) :
  is_name algorithm = true ->
  is_name d = true ->
  length <= len d ->
  let n := Z.to_nat ((length - 1) / 2) in
  exists sh,
    parts (file_location algorithm length d) = algorithm :: ("l" +:+ str length) :: sh ++ [d]
    /\ List.length sh = n
    /\ joined sh = substring 0 (2 * n) d.
Proof.
  intros Halg Hd Hlen n. exists (shards length d). split; [|split].
  - rewrite file_location_parts by (assumption || apply is_name_has_slash; assumption).
    rewrite (is_name_component d Hd). reflexivity.
  - rewrite shards_full by exact Hlen. rewrite length_map, length_seq. reflexivity.
  - rewrite shards_full by exact Hlen. apply (joined_slices 0).
Qed.

Lemma file_location_shards_spell_prefix_witness :
  exists sh,
    parts (file_location "sha256" 7 "abcdefg") = "sha256" :: "l7" :: sh ++ ["abcdefg"]
    /\ List.length sh = 3%nat
    /\ joined sh = "abcdef".
Proof.
  apply (file_location_shards_spell_prefix "sha256" 7 "abcdefg" eq_refl eq_refl).
  vm_compute. discriminate.
Defined.

(** ** The content store and the handlers, continued *)

Lemma substring_prefix m s : exists rest, s = substring 0 m s +:+ rest.
Proof.
  revert m. induction s as [|x s IH]; intros [|m]; simpl.
  - exists "". reflexivity.
  - exists "". reflexivity.
  - exists (String x s). reflexivity.
  - destruct (IH m) as [rest Hr]. exists rest.
    change (String x s = String x (substring 0 m s +:+ rest)). f_equal. exact Hr.
Qed.

Lemma length_substring_0 m s :
  String.length (substring 0 m s) = Nat.min m (String.length s).
Proof.
  revert m. induction s as [|x s IH]; intros [|m]; simpl; auto.
Qed.

Lemma slice_from_0 h n : slice h 0 n = substring 0 (Z.to_nat (clamp_index (len h) n)) h.
Proof.
  unfold slice. assert (Ha : clamp_index (len h) 0 = 0).
  { unfold clamp_index, len. simpl. lia. }
  rewrite Ha. simpl. f_equal. lia.
Qed.

(** A path whose names resolve is a directory. *)
Lemma walk_is_dir fs a names d :
  walk fs [] names = Ok d -> is_dir fs {| anchor := a; parts := names |} = true.
Proof.
  intros Hwalk. unfold is_dir, resolve. cbn [parts].
  destruct (rev names) as [|name rdir] eqn:Hrev; [reflexivity|].
  assert (Hn : names = rev rdir ++ [name]).
  { rewrite <- (rev_involutive names), Hrev. reflexivity. }
  rewrite Hn, walk_app in Hwalk.
  destruct (walk fs [] (rev rdir)) as [d0|e]; [|discriminate]. simpl in Hwalk.
  destruct (lookup_node fs (step_name d0 name)) as [[c|]|] eqn:Hl; try discriminate.
  cbv zeta. destruct (String.eqb name ".."); reflexivity.
Qed.

(** Creating a directory that exists changes nothing. *)
Lemma mkdir_parents_existing p fs :
  is_dir fs p = true -> mkdir_parents p fs = (Ok tt, fs).
Proof.
  intros Hdir. unfold mkdir_parents.
  assert (Hp : {| anchor := anchor p; parts := rev (rev (parts p)) |} = p).
  { rewrite rev_involutive. destruct p; reflexivity. }
  assert (Hmk : os_mkdir p fs = (Raise FileExistsError, fs)).
  { unfold os_mkdir. unfold is_dir in Hdir.
    destruct (resolve fs p) as [[k [[c|]|]]|e]; try discriminate. reflexivity. }
  destruct (rev (parts p)) as [|name rparent]; cbn [mkdir_parents_rev];
    rewrite Hp, Hmk, Hdir; reflexivity.
Qed.

(** The file of a digest holds the content right after its save. *)
(** A load answers what the cache holds, else what the disk holds. *)
Lemma load_of_read content_id content w :
  (forall v, OrderedDict.lookup content_id (LRU.cache (ContentHasher.cache (hasher w))) = Some v ->
             v = content) ->
  read_bytes (entry_path (hasher w) content_id) (disk w) = (Ok content, disk w) ->
  exists w', load content_id w = (Ok (Some content), w') /\ disk w' = disk w.
Proof.
  intros Hhit Hread. rewrite load_eq.
  destruct (OrderedDict.lookup content_id _) as [v|].
  - rewrite (Hhit v eq_refl). eexists. split; reflexivity.
  - rewrite Hread. eexists. split; reflexivity.
Qed.

Lemma split_slash_app a b :
  split_slash (a +:+ "/" +:+ b) = split_slash a ++ split_slash b.
Proof.
  induction a as [|c a IH]; [reflexivity|].
  change (String c a +:+ "/" +:+ b) with (String c (a +:+ "/" +:+ b)).
  simpl. rewrite IH. destruct (Ascii.eqb c "/"); [reflexivity|].
  destruct (split_slash a) as [|x xs] eqn:E; [|reflexivity].
  exfalso. destruct a as [|c' a']; simpl in E; [discriminate|].
  destruct (Ascii.eqb c' "/"); [discriminate|].
  destruct (split_slash a'); discriminate.
Qed.

(** X11.  When [hash] returns, it has changed nothing, and the identifier is
    a prefix of the full hexadecimal digest; for a hash length L >= 0 it has
    min(L, length of the digest) characters. *)
Theorem hash_is_a_prefix (lib : PyLib) (content : bytes) (d : string) (w w' : world) :
  hash lib content w = (Ok d, w') ->
  w' = w
  /\ exists h rest,
       hexdigest lib (ContentHasher.hash_algorithm (hasher w)) content = Some h
       /\ h = d +:+ rest
       /\ (0 <= ContentHasher.hash_length (hasher w) ->
           len d = Z.min (ContentHasher.hash_length (hasher w)) (len h)).
Proof.
  rewrite hash_eq. destruct (hexdigest lib _ content) as [h|]; [|discriminate].
  intros [= <- <-]. split; [reflexivity|]. rewrite slice_from_0.
  destruct (substring_prefix (Z.to_nat (clamp_index (len h) (ContentHasher.hash_length (hasher w)))) h)
    as [rest Hrest].
  exists h, rest. split; [reflexivity|]. split; [exact Hrest|].
  intros HL. unfold len at 1. rewrite length_substring_0. unfold clamp_index.
  destruct (_ <? 0) eqn:E; [lia|]. unfold len. lia.
Qed.

Lemma hash_is_a_prefix_witness :
  exists h rest,
    hexdigest Demo.lib "sha256" [Byte.x61] = Some h /\ h = "61000" +:+ rest.
Proof.
  destruct (hash_is_a_prefix Demo.lib [Byte.x61] "61000" (Demo.world0 100) (Demo.world0 100)
              eq_refl) as (_ & h & rest & Hh & Hp & _).
  exists h, rest. split; [exact Hh | exact Hp].
Defined.

(** X12.  Saving a content again is idempotent on the disk: when a save
    returned a digest, a second save of the same content in the state it left
    returns the same digest and leaves the disk exactly as it was. *)
Theorem save_twice_same_disk (lib : PyLib) (content : bytes) (d : string) (w w1 : world) :
  save lib content w = (Ok d, w1) ->
  exists w2, save lib content w1 = (Ok d, w2) /\ disk w2 = disk w1.
Proof.
  rewrite !save_eq, !hash_eq.
  destruct (hexdigest lib (ContentHasher.hash_algorithm (hasher w)) content) as [h|] eqn:Hh;
    [|discriminate]. cbv zeta.
  destruct (mkdir_parents _ (disk w)) as [[[]|e] fs]; [|discriminate].
  destruct (write_bytes _ content fs) as [[[]|e] fs'] eqn:Hw; [|discriminate].
  intros [= <- <-]. simpl. rewrite Hh.
  set (p := entry_path (hasher w) (slice h 0 (ContentHasher.hash_length (hasher w)))) in *.
  change (entry_path (cache_put _ content (hasher w)) _) with p.
  pose proof (write_bytes_Ok _ _ _ _ Hw) as (name & rdir & d0 & Hrev & Hwalk & Hn & Hnd & ->).
  set (fs2 := <[d0 ++ [name] := File content]> fs).
  assert (Hp : dirs_preserved fs fs2).
  { intros k Hk. unfold fs2. rewrite lookup_insert_ne; [exact Hk | congruence]. }
  assert (Hwalk2 : walk fs2 [] (rev rdir) = Ok d0) by (apply (walk_dirs_preserved fs); assumption).
  assert (Hparent : parent p = {| anchor := anchor p; parts := rev rdir |}).
  { unfold parent. f_equal. rewrite <- (rev_involutive (parts p)), Hrev. simpl.
    apply removelast_last. }
  rewrite Hparent, (mkdir_parents_existing _ fs2) by (apply (walk_is_dir _ _ _ d0), Hwalk2).
  assert (Hw2 : write_bytes p content fs2 = (Ok tt, fs2)).
  { unfold write_bytes, resolve. rewrite Hrev, Hwalk2, Hn.
    rewrite step_name_plain by exact Hn. rewrite lookup_node_snoc.
    unfold fs2 at 1. rewrite lookup_insert_eq. unfold fs2.
    rewrite insert_insert_eq. reflexivity. }
  rewrite Hw2. eexists. split; reflexivity.
Qed.

Lemma save_twice_same_disk_witness :
  let content := String.list_byte_of_string "https://example.com/x" in
  let w1 := (save Demo.lib content (Demo.world0 100)).2 in
  exists w2, save Demo.lib content w1 = (Ok "68747", w2) /\ disk w2 = disk w1.
Proof.
  intros content w1.
  apply (save_twice_same_disk Demo.lib content "68747" (Demo.world0 100) w1).
  vm_compute. reflexivity.
Defined.

(** X13.  A GET never writes to the disk and leaves the configuration of
    the store alone; when it answers 404, or raises while loading, it leaves
    the whole state, cache included, as it was. *)
Theorem GET_never_writes (lib : PyLib) (url_path : string) (w : world) :
  disk (do_GET lib url_path w).2 = disk w
  /\ entry_path (hasher (do_GET lib url_path w).2) = entry_path (hasher w)
  /\ (forall r, (do_GET lib url_path w).1 = Ok r -> status r = 404 ->
                (do_GET lib url_path w).2 = w)
  /\ (forall e, (load (last_segment url_path) w).1 = Raise e ->
                (do_GET lib url_path w).2 = w).
Proof.
  rewrite do_GET_eq, load_eq.
  destruct (OrderedDict.lookup _ _) as [v|].
  - destruct (decode lib v) as [location|]; [destruct (encode_latin1 lib location)|];
      simpl; repeat split; try discriminate.
    intros r [= <-]. discriminate.
  - assert (Hrd : (read_bytes (entry_path (hasher w) (last_segment url_path)) (disk w)).2 = disk w).
    { unfold read_bytes. destruct (resolve _ _) as [[k [[c|]|]]|e']; reflexivity. }
    destruct (read_bytes _ (disk w)) as [[c|e] fs]; simpl in Hrd.
    + destruct (decode lib c) as [location|]; [destruct (encode_latin1 lib location)|];
        simpl; repeat split; try discriminate.
      intros r [= <-]. discriminate.
    + destruct e; simpl; repeat split; try discriminate; reflexivity.
Qed.

Lemma GET_never_writes_witness :
  (do_GET Demo.lib "/abcde" (Demo.world0 100)).2 = Demo.world0 100.
Proof.
  exact (proj1 (proj2 (proj2 (GET_never_writes Demo.lib "/abcde" (Demo.world0 100))))
           {| status := 404; headers := []; body := [] |} eq_refl eq_refl).
Defined.

(** X14.  A load that misses the cache and finds the file puts the entry
    back in the cache when the maximum is at least two: the load answers the
    content of the file, the identifier is cached with it, the disk is
    untouched, and the next load is served from the cache. *)
Theorem load_miss_repopulates (content_id : string) (content : bytes) (w : world) :
  2 <= LRU.max_size (ContentHasher.cache (hasher w)) ->
  OrderedDict.lookup content_id (LRU.cache (ContentHasher.cache (hasher w))) = None ->
  read_bytes (entry_path (hasher w) content_id) (disk w) = (Ok content, disk w) ->
  exists w' w'',
    load content_id w = (Ok (Some content), w')
    /\ OrderedDict.lookup content_id (LRU.cache (ContentHasher.cache (hasher w'))) = Some content
    /\ disk w' = disk w
    /\ load content_id w' = (Ok (Some content), w'').
Proof.
  intros HM Hmiss Hread. rewrite load_eq, Hmiss, Hread.
  destruct (evicted_inserted_ends (LRU.max_size (ContentHasher.cache (hasher w)))
              content_id content (LRU.cache (ContentHasher.cache (hasher w))) HM)
    as (r & Hr & Hnone).
  assert (Hl : OrderedDict.lookup content_id
                 (LRU.cache (ContentHasher.cache (cache_put content_id content (hasher w))))
               = Some content).
  { simpl. rewrite Hr, lookup_snoc, Hnone. destruct (decide (content_id = content_id)); congruence. }
  eexists. eexists. split; [reflexivity|]. split; [exact Hl|]. split; [reflexivity|].
  rewrite load_eq. cbn [hasher with_hasher]. rewrite Hl. reflexivity.
Qed.

Lemma load_miss_repopulates_witness :
  let content := String.list_byte_of_string "https://example.com/x" in
  let w := {| hasher := Demo.hasher0 100;
              disk := disk (save Demo.lib content (Demo.world0 100)).2 |} in
  exists w' w'',
    load "68747" w = (Ok (Some content), w')
    /\ OrderedDict.lookup "68747" (LRU.cache (ContentHasher.cache (hasher w'))) = Some content
    /\ disk w' = disk w
    /\ load "68747" w' = (Ok (Some content), w'').
Proof.
  intros content w.
  apply (load_miss_repopulates "68747" content w).
  - simpl. lia.
  - reflexivity.
  - reflexivity.
Defined.

(** X15.  The identifier of a GET is what follows the last slash of the
    request path: it never contains a slash, and for a path that ends in
    [/<name>] with a name free of slashes it is that name. *)
Theorem identifier_is_last_segment (prefix name : string) :
  has_slash name = false ->
  last_segment (prefix +:+ "/" +:+ name) = name
  /\ forall url_path, has_slash (last_segment url_path) = false.
Proof.
  intros Hn. split; [|apply last_segment_no_slash].
  unfold last_segment. rewrite split_slash_app, (split_slash_no_slash name Hn).
  apply List.last_last.
Qed.

Lemma identifier_is_last_segment_witness : last_segment "/a/b/68747" = "68747".
Proof. exact (proj1 (identifier_is_last_segment "/a/b" "68747" eq_refl)). Defined.

(** X16.  When the save of a POST returns an identifier, the POST is
    answered 200 with the body [http://<Host>/<identifier>]; and when the
    identifier has no slash, the UTF-8 codec reads back the URL it wrote and
    the URL encodes as latin-1, a GET of [/<identifier>] in the state the
    POST left is answered 302 with the re-serialised URL as Location. *)
Theorem POST_then_GET_redirects (lib : PyLib) (content : bytes) (host : option string)
    (s url digest : string) (line : bytes) (w w' : world) :
  decode lib content = Some s ->
  geturl lib s = Some url ->
  url <> "" ->
  save lib (encode lib url) w = (Ok digest, w') ->
  has_slash digest = false ->
  decode lib (encode lib url) = Some url ->
  encode_latin1 lib url = Some line ->
  do_POST lib content host w
  = (Ok {| status := 200;
           headers := [("Content-type", "text/plain")];
           body := encode lib ("http://" +:+ host_str host +:+ "/" +:+ digest) |}, w')
  /\ exists w'',
       do_GET lib ("/" +:+ digest) w'
       = (Ok {| status := 302; headers := [("Location", url)]; body := [] |}, w'').
Proof.
  intros Hdec Hurl Hne Hsave Hs Hback Hline. split.
  { unfold do_POST, bind, lift_option, ret.
    rewrite Hdec. simpl. rewrite Hurl. simpl.
    destruct (String.eqb_spec url ""); [contradiction|]. simpl.
    rewrite Hsave. reflexivity. }
  pose proof (save_Ok_read _ _ _ _ _ Hsave) as Hread.
  assert (Hid : last_segment ("/" +:+ digest) = digest).
  { unfold last_segment. change ("/" +:+ digest) with ("" +:+ "/" +:+ digest).
    rewrite split_slash_app, (split_slash_no_slash digest Hs). reflexivity. }
  destruct (load_of_read digest (encode lib url) w') as (w2 & Hload & _); [|exact Hread|].
  { rewrite save_eq, hash_eq in Hsave.
    destruct (hexdigest lib _ (encode lib url)) as [h|]; [|discriminate]. cbv zeta in Hsave.
    destruct (mkdir_parents _ (disk w)) as [[[]|e] fs]; [|discriminate].
    destruct (write_bytes _ _ fs) as [[[]|e] fs']; [|discriminate].
    injection Hsave as <- <-. simpl. intros v Hv.
    destruct (lookup_cache_put (slice h 0 (ContentHasher.hash_length (hasher w)))
                (encode lib url) (LRU.cache (ContentHasher.cache (hasher w)))
                (LRU.max_size (ContentHasher.cache (hasher w)))) as [Hc|Hc];
      congruence. }
  exists w2. rewrite do_GET_eq, Hid, Hload, Hback, Hline. reflexivity.
Qed.

Lemma POST_then_GET_redirects_witness :
  let post := do_POST Demo.lib (String.list_byte_of_string "HTTP://a") (Some "h")
                (Demo.world0 100) in
  post.1 = Ok {| status := 200; headers := [("Content-type", "text/plain")];
                 body := String.list_byte_of_string "http://h/68747" |}
  /\ exists w'',
       do_GET Demo.lib "/68747" post.2
       = (Ok {| status := 302; headers := [("Location", "http://a")]; body := [] |}, w'').
Proof.
  intros post.
  destruct (POST_then_GET_redirects Demo.lib (String.list_byte_of_string "HTTP://a")
              (Some "h") "HTTP://a" "http://a" "68747"
              (String.list_byte_of_string "http://a")
              (Demo.world0 100) post.2 eq_refl eq_refl ltac:(discriminate) eq_refl
              eq_refl eq_refl eq_refl) as [Hpost Hget].
  split; [|exact Hget].
  exact (f_equal fst Hpost).
Defined.



(** ** The store between requests, continued *)

Section Backed_more.
Variable lib : PyLib.
Variables (algorithm : string) (length : Z) (dir : Path) (n : nat).

Hypothesis algorithm_plain : is_plain algorithm = true.
Hypothesis dir_plain : Forall (fun s => is_plain s = true) (parts dir).
Hypothesis n_positive : (1 <= n)%nat.
Hypothesis digest_shape :
  forall content h,
    hexdigest lib algorithm content = Some h -> digest_ok n (slice h 0 length).

Local Abbreviation key_of := (entry_key algorithm length dir).
Local Abbreviation ok := (digest_ok n).
Local Abbreviation inv := (store_inv algorithm length dir n).
Local Abbreviation digest := (digest_of lib algorithm length).

Lemma digest_of_ok content d : digest content = Some d -> ok d.
Proof.
  unfold digest_of. destruct (hexdigest lib algorithm content) as [h|] eqn:Hh; [|discriminate].
  intros [= <-]. apply digest_shape in Hh. exact Hh.
Qed.

Lemma key_of_inj d d' : key_of d = key_of d' -> d = d'.
Proof.
  unfold entry_key. rewrite !app_assoc. intros Heq.
  apply app_inj_tail in Heq as [_ Heq]. exact Heq.
Qed.

(** What a save does to the state. *)
Lemma save_effect content d w :
  inv w -> digest content = Some d ->
  exists fs1,
    mkdir_post (disk w) fs1 (base algorithm length dir ++ shards length d)
    /\ fs1 !! key_of d <> Some Dir
    /\ save lib content w
       = (Ok d, {| hasher := cache_put d content (hasher w);
                   disk := <[key_of d := File content]> fs1 |}).
Proof.
  intros [Hc Hfiles Hdirs Hcache Hbase] Hdig.
  assert (Hd : ok d) by (apply (digest_of_ok content), Hdig).
  unfold digest_of in Hdig.
  destruct (hexdigest lib algorithm content) as [h|] eqn:Hh; [|discriminate].
  injection Hdig as Hdig. rewrite save_eq, hash_eq.
  assert (Hconf := Hc). destruct Hc as (Ha & Hl & Hdir). rewrite Ha, Hl, Hh, Hdig.
  cbv zeta. rewrite (entry_path_digest algorithm length dir n algorithm_plain n_positive _ d Hconf Hd).
  assert (Hparent : parent {| anchor := anchor dir; parts := key_of d |}
                    = {| anchor := anchor dir; parts := base algorithm length dir ++ shards length d |}).
  { unfold parent, entry_key. simpl. rewrite app_assoc, removelast_last. reflexivity. }
  rewrite Hparent.
  assert (Hkeylen : List.length (key_of d)
                    = S (List.length (base algorithm length dir ++ shards length d))).
  { unfold entry_key. rewrite app_assoc, length_app. simpl. lia. }
  destruct (mkdir_parents_plain
              {| anchor := anchor dir; parts := base algorithm length dir ++ shards length d |}
              (disk w)) as (fs1 & Hmk & Hpost).
  { simpl. apply Forall_app. split; [apply base_plain; assumption | apply shards_plain, Hd]. }
  { simpl. intros k c Hk Hf. destruct (Hfiles _ _ Hf) as (d' & Hd' & ->).
    apply prefix_length in Hk. rewrite (key_of_length algorithm length dir n d' d Hd' Hd) in Hk. lia. }
  rewrite Hmk. simpl in Hpost. destruct Hpost as [Hwalk1 Hk1].
  assert (Hkey1 : fs1 !! key_of d <> Some Dir).
  { destruct (Hk1 (key_of d)) as [He | (_ & _ & Hp)].
    - rewrite He. intros Hdd. pose proof (Hdirs _ _ Hdd Hd). lia.
    - apply prefix_length in Hp. lia. }
  exists fs1. split; [split; assumption|]. split; [exact Hkey1|].
  unfold write_bytes, entry_key. rewrite app_assoc.
  rewrite resolve_snoc by (apply is_plain_not_dotdot, (digest_ok_plain n n_positive), Hd).
  rewrite Hwalk1. rewrite <- app_assoc. fold (key_of d).
  destruct (fs1 !! key_of d) as [[c|]|]; try reflexivity. congruence.
Qed.

(** A file written by a save reads back through any later state that keeps
    the directories and that file. *)
Lemma read_entry_intro self d content fs :
  configured algorithm length dir self -> ok d ->
  walk fs [] (base algorithm length dir ++ shards length d)
  = Ok (base algorithm length dir ++ shards length d) ->
  fs !! key_of d = Some (File content) ->
  read_bytes (entry_path self d) fs = (Ok content, fs).
Proof.
  intros Hc Hd Hwalk Hf.
  rewrite (entry_path_digest algorithm length dir n algorithm_plain n_positive _ d Hc Hd).
  apply (read_bytes_Ok_intro _ _ d (base algorithm length dir ++ shards length d)
           (base algorithm length dir ++ shards length d)).
  - unfold entry_key. simpl. rewrite app_assoc. reflexivity.
  - apply is_plain_not_dotdot, (digest_ok_plain n n_positive), Hd.
  - exact Hwalk.
  - unfold entry_key in Hf. rewrite app_assoc in Hf. exact Hf.
Qed.

(** A GET leaves the disk and the configuration as they were. *)
Lemma do_GET_disk url_path w :
  disk (do_GET lib url_path w).2 = disk w
  /\ entry_path (hasher (do_GET lib url_path w).2) = entry_path (hasher w).
Proof.
  rewrite do_GET_state, load_eq.
  destruct (OrderedDict.lookup _ _) as [v|]; [split; reflexivity|].
  destruct (read_bytes _ (disk w)) as [[c|[]] fs]; split; reflexivity.
Qed.

(** A save of a content the digest provider refuses leaves the state. *)
Lemma save_refused content w :
  inv w -> digest content = None -> (save lib content w).2 = w.
Proof.
  intros [(Ha & _) _ _ _ _]. unfold digest_of. rewrite save_eq, hash_eq, Ha.
  destruct (hexdigest lib algorithm content); [discriminate | reflexivity].
Qed.

Lemma ok_has_slash d : ok d -> has_slash d = false.
Proof.
  intros Hd. apply is_name_has_slash, is_plain_name, (digest_ok_plain n n_positive), Hd.
Qed.

Lemma mkdir_post_dirs fs fs1 ps : mkdir_post fs fs1 ps -> dirs_preserved fs fs1.
Proof.
  intros [_ Hk] k Hd. destruct (Hk k) as [He | (Hn & _)]; congruence.
Qed.

Lemma mkdir_post_files fs fs1 ps k c :
  mkdir_post fs fs1 ps -> fs !! k = Some (File c) -> fs1 !! k = Some (File c).
Proof.
  intros [_ Hk] Hf. destruct (Hk k) as [He | (Hn & _)]; congruence.
Qed.

Lemma mkdir_post_files_inv fs fs1 ps k c :
  mkdir_post fs fs1 ps -> fs1 !! k = Some (File c) -> fs !! k = Some (File c).
Proof.
  intros [_ Hk] Hf. destruct (Hk k) as [He | (_ & Hn & _)]; congruence.
Qed.

(** The entry of a digest, read in a state of the invariant: the file at its
    key, and nothing else. *)
Lemma read_entry_inv w d content :
  inv w -> ok d ->
  read_bytes (entry_path (hasher w) d) (disk w) = (Ok content, disk w) ->
  disk w !! key_of d = Some (File content).
Proof.
  intros [Hc _ _ _ _] Hd Hr.
  rewrite (entry_path_digest algorithm length dir n algorithm_plain n_positive _ d Hc Hd) in Hr.
  apply read_bytes_Ok_inv in Hr as (_ & name & init & d0 & Hp & _ & Hw & Hf).
  simpl in Hp. unfold entry_key in Hp. rewrite app_assoc in Hp.
  apply app_inj_tail in Hp as [<- <-].
  apply walk_plain_Ok in Hw.
  - subst d0. simpl in Hf. unfold entry_key. rewrite app_assoc. exact Hf.
  - apply Forall_app. split; [apply base_plain; assumption | apply shards_plain, Hd].
Qed.

(** The entry of a digest whose key holds nothing is not found. *)
Lemma read_entry_missing w d :
  inv w -> ok d -> disk w !! key_of d = None ->
  read_bytes (entry_path (hasher w) d) (disk w) = (Raise FileNotFoundError, disk w).
Proof.
  intros [Hc Hfiles _ _ _] Hd Hn.
  rewrite (entry_path_digest algorithm length dir n algorithm_plain n_positive _ d Hc Hd).
  unfold read_bytes, entry_key. rewrite app_assoc.
  rewrite resolve_snoc by (apply is_plain_not_dotdot, (digest_ok_plain n n_positive), Hd).
  assert (Hplain : Forall (fun s => is_plain s = true) (base algorithm length dir ++ shards length d)).
  { apply Forall_app. split; [apply base_plain; assumption | apply shards_plain, Hd]. }
  destruct (walk (disk w) [] (base algorithm length dir ++ shards length d)) as [d0|e] eqn:Hw.
  - apply walk_plain_Ok in Hw; [|exact Hplain]. subst d0. simpl.
    rewrite <- app_assoc. fold (key_of d). rewrite Hn. reflexivity.
  - destruct (walk_plain_Raise _ _ _ _ Hplain Hw) as [-> | (k & c & Hk & Hf)]; [reflexivity|].
    simpl in Hf. destruct (Hfiles _ _ Hf) as (d' & Hd' & ->).
    apply prefix_length in Hk.
    rewrite (key_of_length algorithm length dir n d' d Hd' Hd) in Hk.
    unfold entry_key in Hk. rewrite app_assoc, length_app in Hk. simpl in Hk. lia.
Qed.

(** *** A saved content stays *)

Local Abbreviation kept := (kept algorithm length dir n).

Lemma save_kept content d w :
  inv w -> digest content = Some d -> kept d content (save lib content w).2.
Proof.
  intros Hi Hdig. split.
  - apply (save_store_inv lib algorithm length dir n algorithm_plain dir_plain n_positive
             digest_shape content w Hi).
  - destruct (save_effect content d w Hi Hdig) as (fs1 & _ & _ & Hs).
    rewrite Hs. exact (save_Ok_read lib _ _ _ _ Hs).
Qed.

Lemma serve_kept d content r w :
  ok d -> no_collision lib algorithm length d content r ->
  kept d content w -> kept d content (serve lib w r).
Proof.
  intros Hd Hr [Hi Hf]. split.
  { apply (serve_store_inv lib algorithm length dir n algorithm_plain dir_plain n_positive
             digest_shape r w Hi). }
  destruct r as [content'|url_path]; simpl.
  - destruct (digest content') as [d'|] eqn:Hdig.
    + destruct (save_effect content' d' w Hi Hdig) as (fs1 & Hpost & _ & Hs).
      destruct (decide (d' = d)) as [->|Hne].
      * simpl in Hr. rewrite <- (Hr Hdig). rewrite Hs. exact (save_Ok_read lib _ _ _ _ Hs).
      * rewrite Hs. simpl.
        change (entry_path (cache_put d' content' (hasher w)) d) with (entry_path (hasher w) d).
        destruct Hi as [Hc Hfiles Hdirs _ _].
        apply (read_other_entry algorithm length dir n algorithm_plain n_positive
                 (hasher w) (disk w) fs1 d' content' d content Hc Hfiles Hdirs).
        -- apply (digest_of_ok content'), Hdig.
        -- eapply mkdir_post_dirs, Hpost.
        -- intros k c. eapply mkdir_post_files, Hpost.
        -- apply ok_has_slash, Hd.
        -- congruence.
        -- exact Hf.
    + rewrite save_refused by assumption. exact Hf.
  - destruct (do_GET_disk url_path w) as [-> ->]. exact Hf.
Qed.

Lemma serve_all_kept d content rs w :
  ok d -> Forall (no_collision lib algorithm length d content) rs ->
  kept d content w -> kept d content (serve_all lib rs w).
Proof.
  unfold serve_all. intros Hd Hrs. revert w.
  induction Hrs as [|r rs Hr _ IH]; intros w Hk; [exact Hk|].
  simpl. apply IH, serve_kept; assumption.
Qed.

Lemma kept_load d content w :
  kept d content w ->
  exists w', load d w = (Ok (Some content), w') /\ disk w' = disk w.
Proof.
  intros [Hi Hread].
  apply load_of_read; [|exact Hread].
  intros v Hv. apply lookup_Some_elem in Hv.
  destruct Hi as [_ _ _ Hcache _]. destruct (Hcache _ _ Hv) as [_ Hr]. congruence.
Qed.

(** *** An identifier nobody saved *)

Local Abbreviation absent := (absent algorithm length dir n).

Lemma serve_absent d r w :
  ok d -> never_saves lib algorithm length d r ->
  absent d w -> absent d (serve lib w r).
Proof.
  intros Hd Hr [Hi Hn]. split.
  { apply (serve_store_inv lib algorithm length dir n algorithm_plain dir_plain n_positive
             digest_shape r w Hi). }
  destruct r as [content'|url_path]; simpl.
  - destruct (digest content') as [d'|] eqn:Hdig.
    + destruct (save_effect content' d' w Hi Hdig) as (fs1 & Hpost & _ & ->). simpl.
      assert (Hd' : ok d') by (apply (digest_of_ok content'), Hdig).
      simpl in Hr.
      rewrite lookup_insert_ne by (intros Hk; apply key_of_inj in Hk; congruence).
      destruct Hpost as [_ Hk]. destruct (Hk (key_of d)) as [-> | (_ & _ & Hp)]; [exact Hn|].
      apply prefix_length in Hp.
      rewrite (key_of_length algorithm length dir n d d' Hd Hd') in Hp.
      unfold entry_key in Hp. rewrite app_assoc, length_app in Hp. simpl in Hp. lia.
    + rewrite save_refused by assumption. exact Hn.
  - rewrite (proj1 (do_GET_disk url_path w)). exact Hn.
Qed.

Lemma serve_all_absent d rs w :
  ok d -> Forall (never_saves lib algorithm length d) rs ->
  absent d w -> absent d (serve_all lib rs w).
Proof.
  unfold serve_all. intros Hd Hrs. revert w.
  induction Hrs as [|r rs Hr _ IH]; intros w Hk; [exact Hk|].
  simpl. apply IH, serve_absent; assumption.
Qed.

Lemma absent_not_cached d w :
  ok d -> absent d w ->
  OrderedDict.lookup d (LRU.cache (ContentHasher.cache (hasher w))) = None.
Proof.
  intros Hd [Hi Hn].
  destruct (OrderedDict.lookup d _) as [v|] eqn:Hv; [|reflexivity].
  apply lookup_Some_elem in Hv.
  destruct (inv_cache _ _ _ _ _ Hi _ _ Hv) as [_ Hr].
  apply (read_entry_inv w d v Hi Hd) in Hr. congruence.
Qed.

(** *** Files are named after their content *)

Lemma serve_addressed r w :
  inv w -> addressed lib algorithm length dir (disk w) ->
  addressed lib algorithm length dir (disk (serve lib w r)).
Proof.
  intros Hi Ha. destruct r as [content'|url_path]; simpl.
  - destruct (digest content') as [d'|] eqn:Hdig.
    + destruct (save_effect content' d' w Hi Hdig) as (fs1 & Hpost & _ & ->). simpl.
      intros k c Hk. destruct (decide (k = key_of d')) as [->|Hne].
      * rewrite lookup_insert_eq in Hk. injection Hk as <-. exists d'. split; [exact Hdig | reflexivity].
      * rewrite lookup_insert_ne in Hk by congruence.
        apply Ha. eapply mkdir_post_files_inv; eassumption.
    + rewrite save_refused by assumption. exact Ha.
  - rewrite (proj1 (do_GET_disk url_path w)). exact Ha.
Qed.

Lemma serve_all_addressed rs w :
  inv w -> addressed lib algorithm length dir (disk w) ->
  inv (serve_all lib rs w) /\ addressed lib algorithm length dir (disk (serve_all lib rs w)).
Proof.
  unfold serve_all. revert w. induction rs as [|r rs IH]; intros w Hi Ha; [split; assumption|].
  simpl. apply IH; [|apply serve_addressed; assumption].
  apply (serve_store_inv lib algorithm length dir n algorithm_plain dir_plain n_positive
           digest_shape r w Hi).
Qed.

(** What a read of the entry of a slash-free identifier returns is a content
    of that digest. *)
Lemma read_addressed w content_id content :
  inv w -> addressed lib algorithm length dir (disk w) ->
  has_slash content_id = false ->
  read_bytes (entry_path (hasher w) content_id) (disk w) = (Ok content, disk w) ->
  digest content = Some content_id.
Proof.
  intros Hi Ha Hs Hr. destruct Hi as [Hc _ _ _ _].
  rewrite (entry_path_parts algorithm length dir algorithm_plain _ _ Hc Hs) in Hr.
  apply read_bytes_Ok_inv in Hr as (_ & name & init & d0 & Hp & _ & Hw & Hf).
  destruct (Ha _ _ Hf) as (d' & Hdig & Hk).
  unfold entry_key in Hk. rewrite app_assoc in Hk. apply app_inj_tail in Hk as [_ ->].
  simpl in Hp. destruct (is_component content_id) eqn:Hcomp.
  - rewrite app_assoc in Hp. apply app_inj_tail in Hp as [_ <-]. exact Hdig.
  - exfalso. rewrite shards_not_component in Hp by exact Hcomp.
    unfold base in Hp. simpl in Hp. rewrite app_nil_r in Hp.
    change (parts dir ++ [algorithm; "l" +:+ str length])
      with (parts dir ++ [algorithm] ++ ["l" +:+ str length]) in Hp.
    rewrite app_assoc in Hp. apply app_inj_tail in Hp as [_ Hp].
    apply digest_of_ok in Hdig. destruct Hdig as [Hh _]. rewrite <- Hp in Hh.
    discriminate Hh.
Qed.
End Backed_more.

Lemma started_store_inv algorithm length dir n cache_size :
  store_inv algorithm length dir n (started algorithm length dir cache_size).
Proof. apply initial_store_inv. Qed.

Lemma Demo_well_configured :
  well_configured Demo.lib "sha256" 5 (path_of "goto_state") 5.
Proof.
  split; [reflexivity|]. split; [repeat constructor|]. split; [lia|].
  exact Demo_digest_shape.
Qed.

(** X17.  Over a disk that only the server writes and whose operations fail
    only for reasons of path structure (a file or a directory in the way, a
    missing parent): in every state a well-configured server reaches from
    its start by saves and GETs, a save of a content for which the digest
    provider returns a digest returns the identifier of the content; no
    directory creation and no write of it raises. *)
Theorem save_result_in_reachable_state (lib : PyLib) (algorithm : string) (length : Z)
    (dir : Path) (n : nat) (cache_size : Z) (rs : list request) (content : bytes)
    (h : string) :
  well_configured lib algorithm length dir n ->
  hexdigest lib algorithm content = Some h ->
  (save lib content (serve_all lib rs (started algorithm length dir cache_size))).1
  = Ok (slice h 0 length).
Proof.
  intros (Halg & Hdir & Hn & Hshape) Hh.
  pose proof (serve_all_store_inv lib algorithm length dir n Halg Hdir Hn Hshape rs _
                (started_store_inv algorithm length dir n cache_size)) as Hinv.
  apply (save_store_inv lib algorithm length dir n Halg Hdir Hn Hshape content _ Hinv), Hh.
Qed.

Lemma save_result_in_reachable_state_witness :
  (save Demo.lib (String.list_byte_of_string "https://example.com/y")
     (serve_all Demo.lib
        [Save (String.list_byte_of_string "https://example.com/x"); Get "/68747"; Get "/"]
        (started "sha256" 5 (path_of "goto_state") 2))).1
  = Ok "68747".
Proof.
  exact (save_result_in_reachable_state Demo.lib "sha256" 5 (path_of "goto_state") 5 2
           [Save (String.list_byte_of_string "https://example.com/x"); Get "/68747"; Get "/"]
           (String.list_byte_of_string "https://example.com/y")
           (substring 0 64
              (Demo.hex_of_bytes (String.list_byte_of_string "https://example.com/y")
               +:+ Demo.zeros 64))
           Demo_well_configured eq_refl).
Defined.





(** X20.  A GET of a well-formed identifier that no request saved is
    answered 404 and changes nothing, in every state a well-configured server
    reaches from its start by saves and GETs. *)
Theorem GET_of_unsaved_identifier (lib : PyLib) (algorithm : string) (length : Z)
    (dir : Path) (n : nat) (cache_size : Z) (rs : list request) (url_path : string) :
  well_configured lib algorithm length dir n ->
  digest_ok n (last_segment url_path) ->
  Forall (never_saves lib algorithm length (last_segment url_path)) rs ->
  do_GET lib url_path (serve_all lib rs (started algorithm length dir cache_size))
  = (Ok {| status := 404; headers := []; body := [] |},
     serve_all lib rs (started algorithm length dir cache_size)).
Proof.
  intros (Halg & Hdir & Hn & Hshape) Hd Hrs.
  assert (Ha : absent algorithm length dir n (last_segment url_path)
                 (serve_all lib rs (started algorithm length dir cache_size))).
  { apply (serve_all_absent lib algorithm length dir n Halg Hdir Hn Hshape); try assumption.
    split; [apply started_store_inv | apply lookup_empty]. }
  apply do_GET_not_found.
  - eapply absent_not_cached; eassumption.
  - destruct Ha as [Hinv Hnone].
    eapply read_entry_missing; eassumption.
Qed.

Lemma GET_of_unsaved_identifier_witness :
  do_GET Demo.lib "/abcde"
    (serve_all Demo.lib
       [Save (String.list_byte_of_string "https://example.com/x"); Get "/68747"; Get "/abcde"]
       (started "sha256" 5 (path_of "goto_state") 2))
  = (Ok {| status := 404; headers := []; body := [] |},
     serve_all Demo.lib
       [Save (String.list_byte_of_string "https://example.com/x"); Get "/68747"; Get "/abcde"]
       (started "sha256" 5 (path_of "goto_state") 2)).
Proof.
  apply (GET_of_unsaved_identifier Demo.lib "sha256" 5 (path_of "goto_state") 5 2).
  - exact Demo_well_configured.
  - split; reflexivity.
  - repeat constructor. intros H; vm_compute in H; discriminate H.
Defined.
